(** * One-vs-all logistic regression (examples/machine_learning/logistic_regression.cpp)

    A shallow embedding of the functions [accuracy], [sigmoid], [predict],
    [cost] and [train] of the example and of the statement of [lr_demo] that
    adds the bias column, over a small model of the array library they
    call.

    Element type.  The arrays of the example hold single precision numbers.
    For the statements about the formulas the code evaluates ([predict],
    [cost], [train]) an element is a real number of the Standard Library,
    and rounding, overflow and NaN are left out.  Where a statement is
    about the very number that is returned (the value of [accuracy], the
    order of the values of [sigmoid]) the operations are those of IEEE 754
    binary32, module [F32]: every operation returns the exact result
    rounded to the nearest representable number, ties to even. *)

From Stdlib Require Import Reals Lra Lia List ZArith Bool Arith.
From Stdlib Require Import Floats.SpecFloat.
Import ListNotations.

Open Scope R_scope.

(** ** Failure of a library call *)

Inductive af_error : Type :=
| ShapeMismatch.

Inductive result (T : Type) : Type :=
| Ok (v : T)
| Err (e : af_error).

Arguments Ok {T} v.
Arguments Err {T} e.

Definition bind {A B : Type} (r : result A) (k : A -> result B) : result B :=
  match r with
  | Ok v => k v
  | Err e => Err e
  end.

Notation "x <- e ;; k" := (bind e (fun x => k))
  (at level 61, e at next level, right associativity).

(** ** Single precision

    IEEE 754 binary32: 24 significant bits, units in the last place from
    2^-149 (the subnormal numbers and the first binade) to 2^104, overflow
    to infinity from 2^128 on.  A finite number is kept as the real number
    it stands for; the sign of zero is not kept. *)

Module F32.

Definition bpow (e : Z) : R := powerRZ 2 e.

Inductive f32 : Type :=
| Fin (x : R)
| Inf (negative : bool)
| NaN.

(** The exponent g of the unit in the last place 2^g of x >= 0: the
    largest g from -148 to 104 with 2^(g+23) <= x, and -149 below 2^-125;
    [n] is the number of candidates left, from the largest down. *)
Fixpoint ulp_exp_from (n : nat) (x : R) : Z :=
  match n with
  | O => (-149)%Z
  | S k =>
      if Rle_dec (bpow (Z.of_nat k - 148 + 23)) x
      then (Z.of_nat k - 148)%Z
      else ulp_exp_from k x
  end.

Definition ulp_exp (x : R) : Z := ulp_exp_from 253 x.

(** The integer nearest to t, the even one of the two at a tie. *)
Definition rne (t : R) : Z :=
  let f := Int_part t in
  if Rlt_dec (t - IZR f) (1 / 2) then f
  else if Rlt_dec (1 / 2) (t - IZR f) then (f + 1)%Z
  else if Z.even f then f else (f + 1)%Z.

(** x >= 0 rounded to a multiple of its unit in the last place. *)
Definition round_pos (x : R) : R :=
  IZR (rne (x * bpow (- ulp_exp x))) * bpow (ulp_exp x).

Definition round (x : R) : f32 :=
  if Rle_dec 0 x
  then if Rle_dec (bpow 128) (round_pos x) then Inf false
       else Fin (round_pos x)
  else if Rle_dec (bpow 128) (round_pos (- x)) then Inf true
       else Fin (- round_pos (- x)).

Definition negative (x : R) : bool := if Rlt_dec x 0 then true else false.

(** The number a float of the Standard Library's IEEE 754 model stands
    for. *)
Definition of_spec (f : spec_float) : f32 :=
  match f with
  | S754_zero _ => Fin 0
  | S754_infinity s => Inf s
  | S754_nan => NaN
  | S754_finite s m e => Fin ((if s then -1 else 1) * IZR (Zpos m) * bpow e)
  end.

(** The conversions of an integer to [float]. *)
Definition of_Z (z : Z) : f32 := round (IZR z).
Definition of_nat (n : nat) : f32 := round (INR n).

Definition neg (a : f32) : f32 :=
  match a with
  | Fin x => Fin (- x)
  | Inf s => Inf (negb s)
  | NaN => NaN
  end.

Definition add (a b : f32) : f32 :=
  match a, b with
  | Fin x, Fin y => round (x + y)
  | Fin _, Inf s => Inf s
  | Inf s, Fin _ => Inf s
  | Inf s, Inf t => if Bool.eqb s t then Inf s else NaN
  | _, _ => NaN
  end.

Definition mul (a b : f32) : f32 :=
  match a, b with
  | Fin x, Fin y => round (x * y)
  | Fin x, Inf s => if Req_EM_T x 0 then NaN else Inf (xorb (negative x) s)
  | Inf s, Fin y => if Req_EM_T y 0 then NaN else Inf (xorb s (negative y))
  | Inf s, Inf t => Inf (xorb s t)
  | _, _ => NaN
  end.

(** A quotient by zero takes the sign of the dividend (the zero of the
    example, a count of elements, is never negative). *)
Definition div (a b : f32) : f32 :=
  match a, b with
  | Fin x, Fin y =>
      if Req_EM_T y 0
      then if Req_EM_T x 0 then NaN else Inf (negative x)
      else round (x / y)
  | Fin x, Inf _ => Fin 0
  | Inf s, Fin y => Inf (xorb s (negative y))
  | _, _ => NaN
  end.

(** Modelled from the spec: [exp] of the array library on one entry, taken
    as the exponential rounded to the nearest representable number. *)
Definition exp (a : f32) : f32 :=
  match a with
  | Fin x => round (Rtrigo_def.exp x)
  | Inf false => Inf false
  | Inf true => Fin 0
  | NaN => NaN
  end.

End F32.

(** ** The array library

    The library ([af::array] and the functions on it) is not part of the
    example's file; what the example calls is modelled from the spec, which
    names the operations: element-wise arithmetic, matrix product,
    transpose, the reduction [sum] and the row-wise maximum with its index.
    An array is kept as its two leading dimensions and its entries; the
    entries outside the dimensions carry no meaning. *)

Module AF.

Record array (T : Type) : Type := mkArray {
  d0 : nat;
  d1 : nat;
  elem : nat -> nat -> T
}.

Arguments mkArray {T} d0 d1 elem.
Arguments d0 {T} a.
Arguments d1 {T} a.
Arguments elem {T} a i j.

(** Modelled from the spec: [a.dims(d)] of the array library, the extent
    along dimension [d]; a matrix has extent 1 beyond its two dimensions. *)
Definition dims {T} (a : array T) (d : nat) : nat :=
  match d with
  | O => d0 a
  | S O => d1 a
  | _ => 1%nat
  end.

(** Modelled from the spec: [a.elements()], the number of entries. *)
Definition elements {T} (a : array T) : nat := (d0 a * d1 a)%nat.

Definition same_dims {A B} (a : array A) (b : array B) : bool :=
  Nat.eqb (d0 a) (d0 b) && Nat.eqb (d1 a) (d1 b).

(** Modelled from the spec: [constant(v, r, c)], the r x c array whose
    entries all are [v]. *)
Definition constant {T} (v : T) (r c : nat) : array T :=
  mkArray r c (fun _ _ => v).

(** Modelled from the spec: the array a declaration [array x;] leaves in
    [x] before its first assignment. *)
Definition empty : array R := mkArray 0 0 (fun _ _ => 0).

(** Modelled from the spec: an operator of the array library between a
    scalar and an array, or one of its functions applied to every entry. *)
Definition map1 {A B} (f : A -> B) (a : array A) : array B :=
  mkArray (d0 a) (d1 a) (fun i j => f (elem a i j)).

(** Modelled from the spec: the element-wise operators of the array
    library between two arrays; operands of different dimensions are a
    ShapeMismatch. *)
Definition map2 {A B C} (f : A -> B -> C) (a : array A) (b : array B)
  : result (array C) :=
  if same_dims a b
  then Ok (mkArray (d0 a) (d1 a) (fun i j => f (elem a i j) (elem b i j)))
  else Err ShapeMismatch.

Definition add := map2 Rplus.
Definition sub := map2 Rminus.
Definition mul := map2 Rmult.
Definition neg := map1 Ropp.
Definition exp := map1 Rtrigo_def.exp.
Definition log := map1 ln.

(** [s + a], [s - a], [s * a], [s / a] and [a / s] for a scalar [s].  Over
    the real numbers a quotient by 0 is a number, where the program has NaN
    or an infinity: the statements on [cost] and [train] are for at least
    one sample, where [a / m] divides by m >= 1. *)
Definition sadd (s : R) := map1 (Rplus s).
Definition ssub (s : R) := map1 (Rminus s).
Definition smul (s : R) := map1 (Rmult s).
Definition sdiv (s : R) := map1 (Rdiv s).
Definition divs (a : array R) (s : R) := map1 (fun x => x / s) a.

(** Sum of [f 0 .. f (n-1)] *)
Fixpoint sum_n (f : nat -> R) (n : nat) : R :=
  match n with
  | O => 0
  | S k => sum_n f k + f k
  end.

(** Modelled from the spec: [matmul] of the array library, the matrix
    product; the column count of the left operand must be the row count of
    the right one, otherwise ShapeMismatch. *)
Definition matmul (a b : array R) : result (array R) :=
  if Nat.eqb (d1 a) (d0 b)
  then Ok (mkArray (d0 a) (d1 b)
             (fun i j => sum_n (fun k => elem a i k * elem b k j) (d1 a)))
  else Err ShapeMismatch.

(** Modelled from the spec: [a.T()], the transpose. *)
Definition T {A} (a : array A) : array A :=
  mkArray (d1 a) (d0 a) (fun i j => elem a j i).

(** Modelled from the spec: [sum] of the array library, the reduction the
    spec calls the sum over all entries; the result is an array of one
    entry. *)
Definition sum (a : array R) : array R :=
  mkArray 1 1 (fun _ _ => sum_n (fun i => sum_n (fun j => elem a i j) (d1 a)) (d0 a)).

(** Modelled from the spec: the assignment [a(0, span) = v], which sets
    row 0 to [v] and leaves the other rows as they are. *)
Definition assign_row0 {A} (a : array A) (v : A) : array A :=
  mkArray (d0 a) (d1 a) (fun i j => if Nat.eqb i 0 then v else elem a i j).

Definition Rltb (x y : R) : bool := if Rlt_dec x y then true else false.

(** Modelled from the spec: [a < s] for a scalar [s], entry by entry. *)
Definition lts (a : array R) (s : R) : array bool := map1 (fun x => Rltb x s) a.

(** Modelled from the spec: [p == t] on arrays of indices, entry by entry. *)
Definition eqa := map2 Nat.eqb.

(** Modelled from the spec: [alltrue<bool>(a)], whether every entry is
    true. *)
Definition alltrue (a : array bool) : bool :=
  forallb (fun i => forallb (fun j => elem a i j) (seq 0 (d1 a))) (seq 0 (d0 a)).

(** Modelled from the spec: [count<float>(a)], the number of entries that
    are true, converted to [float]. *)
Definition count_nat (a : array bool) : nat :=
  list_sum (map (fun i => length (filter (fun j => elem a i j) (seq 0 (d1 a))))
                (seq 0 (d0 a))).

Definition count (a : array bool) : F32.f32 := F32.of_nat (count_nat a).

(** Modelled from the spec: the index of the maximum of [f 0 .. f (n-1)];
    among equal maxima the lowest index wins. *)
Fixpoint argmax (f : nat -> R) (n : nat) : nat :=
  match n with
  | O => O
  | S k => let b := argmax f k in
           if Rltb (f b) (f k) then k else b
  end.

(** Modelled from the spec: [max(val, idx, in, 1)], the maximum of every
    row and its index. *)
Definition max1 (a : array R) : array R * array nat :=
  let idx := fun i => argmax (fun j => elem a i j) (d1 a) in
  (mkArray (d0 a) 1 (fun i _ => elem a i (idx i)),
   mkArray (d0 a) 1 (fun i _ => idx i)).

(** Modelled from the spec: [join(1, a, b)] of the array library, the
    concatenation of [a] and [b] along dimension 1 (the columns of [a], then
    those of [b]); operands of different row counts are a ShapeMismatch. *)
Definition join1 {A} (a b : array A) : result (array A) :=
  if Nat.eqb (d0 a) (d0 b)
  then Ok (mkArray (d0 a) (d1 a + d1 b)
             (fun i j => if Nat.ltb j (d1 a) then elem a i j
                         else elem b i (j - d1 a)))
  else Err ShapeMismatch.

End AF.

(** ** The example *)

(** The return statement is C++ arithmetic on [float]: the int 100 and the
    element count are converted, the product and the quotient are
    rounded. *)
Definition accuracy (predicted target : AF.array R) : result F32.f32 :=
  let '(_, tlabels) := AF.max1 target in
  let '(_, plabels) := AF.max1 predicted in
  same <- AF.eqa plabels tlabels ;;
  Ok (F32.div (F32.mul (F32.of_Z 100) (AF.count same))
        (F32.of_nat (AF.elements tlabels))).

(** Activation function, over the real numbers: the formula the statements
    on [predict] and [cost] are about.  It does not saturate; the values in
    single precision are those of [sigmoid32]. *)
Definition sigmoid (val : AF.array R) : AF.array R :=
  AF.sdiv 1 (AF.sadd 1 (AF.exp (AF.neg val))).

(** [sigmoid] on single precision entries: the negation, [exp], [1 + .] and
    [1 / .] entry by entry, each rounded. *)
Definition sigmoid32 (val : AF.array F32.f32) : AF.array F32.f32 :=
  AF.map1 (F32.div (F32.Fin 1))
    (AF.map1 (F32.add (F32.Fin 1)) (AF.map1 F32.exp (AF.map1 F32.neg val))).

(** Predict based on given parameters *)
Definition predict (X Weights : AF.array R) : result (AF.array R) :=
  s <- AF.matmul X Weights ;;
  Ok (sigmoid s).

(** The first two statements of [cost]:
    [array lambdat = constant(lambda, Weights.dims()); lambdat(0, span) = 0;] *)
Definition lambdat (lambda : R) (Weights : AF.array R) : AF.array R :=
  AF.assign_row0 (AF.constant lambda (AF.d0 Weights) (AF.d1 Weights)) 0.

Definition cost (Weights X Y : AF.array R) (lambda : R)
  : result (AF.array R * AF.array R) :=
  (* Number of samples *)
  let m := INR (AF.dims Y 0) in
  (* Make the lambda corresponding to Weights(0) == 0 *)
  let lambdat := lambdat lambda Weights in
  (* Get the prediction *)
  H <- predict X Weights ;;
  (* Calculate cost *)
  t1 <- AF.mul Y (AF.log H) ;;
  t2 <- AF.mul (AF.ssub 1 Y) (AF.log (AF.ssub 1 H)) ;;
  t <- AF.add t1 t2 ;;
  let J := AF.divs (AF.neg (AF.sum t)) m in
  lw <- AF.mul lambdat Weights ;;
  lww <- AF.mul lw Weights ;;
  J <- AF.add J (AF.divs (AF.smul 0.5 (AF.sum lww)) m) ;;
  (* Find the gradient of cost *)
  D <- AF.sub H Y ;;
  xtd <- AF.matmul (AF.T X) D ;;
  lw' <- AF.mul lambdat Weights ;;
  g <- AF.add xtd lw' ;;
  Ok (J, AF.divs g m).

(** The variables of [train]; [evals] counts the calls of [cost] and is not
    a variable of the source. *)
Record train_state : Type := mkState {
  Weights : AF.array R;
  J : AF.array R;
  dJ : AF.array R;
  evals : nat
}.

(** [for (int i = 0; i < n; i++) body], where [body] does not read [i] and
    answers whether it left the loop by [break]. *)
Fixpoint for_loop {S : Type} (n : nat) (body : S -> result (S * bool)) (s : S)
  : result S :=
  match n with
  | O => Ok s
  | S k =>
      r <- body s ;;
      if snd r then Ok (fst r) else for_loop k body (fst r)
  end.

Definition train_body (X Y : AF.array R) (alpha lambda : R) (s : train_state)
  : result (train_state * bool) :=
  (* Get the cost and gradient *)
  r <- cost (Weights s) X Y lambda ;;
  let s1 := mkState (Weights s) (fst r) (snd r) (S (evals s)) in
  if AF.alltrue (AF.lts (J s1) 0.1) then Ok (s1, true)
  else
    (* Update the parameters via gradient descent *)
    W' <- AF.sub (Weights s1) (AF.smul alpha (dJ s1)) ;;
    Ok (mkState W' (J s1) (dJ s1) (evals s1), false).

Definition train_init (X Y : AF.array R) : train_state :=
  (* Initialize parameters to 0 *)
  mkState (AF.constant 0 (AF.dims X 1) (AF.dims Y 1)) AF.empty AF.empty 0.

Definition train_run (X Y : AF.array R) (alpha lambda : R) (maxiter : Z)
  : result train_state :=
  for_loop (Z.to_nat maxiter) (train_body X Y alpha lambda) (train_init X Y).

Definition train (X Y : AF.array R) (alpha lambda : R) (maxiter : Z)
  : result (AF.array R) :=
  s <- train_run X Y alpha lambda maxiter ;;
  Ok (Weights s).

(** The statement of [lr_demo] that adds a bias that is always 1:
    [feats = join(1, constant(1, num, 1), feats);] *)
Definition join_bias (num : nat) (feats : AF.array R) : result (AF.array R) :=
  AF.join1 (AF.constant 1 num 1) feats.

(** ** Vocabulary of the statements *)

(** At least one row and one column. *)
Definition nonempty (a : AF.array R) : Prop :=
  (1 <= AF.d0 a)%nat /\ (1 <= AF.d1 a)%nat.

(** The three shape equations between the operands of [cost]. *)
Definition shapes_agree (W X Y : AF.array R) : Prop :=
  AF.d1 X = AF.d0 W /\ AF.d0 X = AF.d0 Y /\ AF.d1 W = AF.d1 Y.


(** X is m x n, Y is m x k, W is n x k and there is at least one sample. *)
Definition well_shaped (W X Y : AF.array R) : Prop :=
  AF.d0 X = AF.d0 Y /\ AF.d1 X = AF.d0 W /\ AF.d1 Y = AF.d1 W /\
  (1 <= AF.d0 Y)%nat.

(** The RegularizationMask of the spec: lambda everywhere except row 0. *)
Definition mask (lambda : R) (r : nat) : R :=
  if Nat.eqb r 0 then 0 else lambda.

(** Sum over all entries of an r x c table. *)
Definition sum_all (f : nat -> nat -> R) (r c : nat) : R :=
  AF.sum_n (fun i => AF.sum_n (fun j => f i j) c) r.

(** The index [max] reports for row [i]. *)
Definition argmax_row (a : AF.array R) (i : nat) : nat :=
  AF.argmax (fun j => AF.elem a i j) (AF.d1 a).

(** The number of rows whose two argmax indices agree. *)
Definition matches (predicted target : AF.array R) : nat :=
  length (filter (fun i => Nat.eqb (argmax_row predicted i) (argmax_row target i))
            (seq 0 (AF.d0 predicted))).

(** Batch gradient descent as the spec words it, with a budget of
    iterations: [gd_run X Y alpha lambda n W Wf e] says that from the weights
    [W], with at most [n] iterations left, the run ends with the weights
    [Wf] after [e] evaluations of the cost and gradient. *)
Inductive gd_run (X Y : AF.array R) (alpha lambda : R)
  : nat -> AF.array R -> AF.array R -> nat -> Prop :=
| gd_exhausted W :
    gd_run X Y alpha lambda 0 W W 0
| gd_converged n W Jv dJv :
    cost W X Y lambda = Ok (Jv, dJv) ->
    AF.elem Jv 0 0 < 0.1 ->
    gd_run X Y alpha lambda (S n) W W 1
| gd_update n W Jv dJv W' Wf e :
    cost W X Y lambda = Ok (Jv, dJv) ->
    ~ AF.elem Jv 0 0 < 0.1 ->
    AF.sub W (AF.smul alpha dJv) = Ok W' ->
    gd_run X Y alpha lambda n W' Wf e ->
    gd_run X Y alpha lambda (S n) W Wf (S e).

(** ** Sample inputs *)

(** Sample operands: two samples, a bias column and one feature, one class. *)

Definition X0 : AF.array R := AF.constant 0 2 2.
Definition Y0 : AF.array R := AF.constant 0 2 1.
Definition W0 : AF.array R := AF.constant 1 2 1.

(** target: two samples, classes 1 and 0; predicted: row 0 favours class 1,
    row 1 is a tie, which goes to class 0. *)
Definition T1 : AF.array R :=
  AF.mkArray 2 2 (fun i j => if Nat.eqb (i + j) 1 then 1 else 0).
Definition P1 : AF.array R :=
  AF.mkArray 2 2 (fun i j => if Nat.eqb i 0 then INR j else 0.5).


(** One sample of one feature, which is 1, with label 1. *)
Definition Xc : AF.array R := AF.constant 1 1 1.
Definition Yc : AF.array R := AF.constant 1 1 1.

(** ** Evaluation of [cost] on well-shaped operands *)

Ltac shapes :=
  unfold cost, predict, sigmoid, lambdat, AF.matmul, AF.mul, AF.add, AF.sub,
    AF.sdiv, AF.sadd, AF.ssub, AF.smul, AF.divs, AF.exp, AF.log, AF.neg,
    AF.sum, AF.T, AF.assign_row0, AF.constant, AF.map2, AF.map1, AF.same_dims;
  cbn; repeat (rewrite ?Nat.eqb_refl; cbn).

Lemma cost_eval (W X Y : AF.array R) (lambda : R) :
  well_shaped W X Y ->
  exists H D P lw Jv dJv,
    predict X W = Ok H /\ AF.sub H Y = Ok D /\
    AF.matmul (AF.T X) D = Ok P /\
    AF.mul (lambdat lambda W) W = Ok lw /\
    cost W X Y lambda = Ok (Jv, dJv) /\
    (AF.d0 H = AF.d0 Y /\ AF.d1 H = AF.d1 Y) /\
    (AF.d0 Jv = 1%nat /\ AF.d1 Jv = 1%nat) /\
    (AF.d0 dJv = AF.d0 W /\ AF.d1 dJv = AF.d1 W) /\
    AF.elem Jv 0 0 =
      - sum_all (fun i j => AF.elem Y i j * ln (AF.elem H i j) +
                            (1 - AF.elem Y i j) * ln (1 - AF.elem H i j))
          (AF.d0 Y) (AF.d1 Y) / INR (AF.d0 Y)
      + 0.5 * sum_all (fun r c => AF.elem lw r c * AF.elem W r c)
                (AF.d0 W) (AF.d1 W) / INR (AF.d0 Y) /\
    (forall r c, AF.elem dJv r c =
                 (AF.elem P r c + AF.elem lw r c) / INR (AF.d0 Y)) /\
    (forall r c, AF.elem lw r c = mask lambda r * AF.elem W r c).
Proof.
  intros (H1 & H2 & H3 & H4).
  destruct W as [wn wk w], X as [xm xn x], Y as [ym yk y]; cbn in *; subst.
  do 6 eexists.
  do 5 (split; [shapes; reflexivity|]).
  repeat split; intros; unfold mask, sum_all; shapes; reflexivity.
Qed.

Lemma well_shaped_0 : well_shaped W0 X0 Y0.
Proof. unfold well_shaped; cbn; lia. Qed.

(** ** The gradient *)

(** C1, as the spec words it, fails: on two samples with all features 0,
    weights 1 and lambda 1 the entry (1, 0) of the gradient returned by
    [cost] is not (1/m) * (Xt . D) + mask * W at that entry. *)
Lemma cost_gradient_unscaled_penalty_fails :
  exists H D P Jv dJv,
    well_shaped W0 X0 Y0 /\
    predict X0 W0 = Ok H /\ AF.sub H Y0 = Ok D /\
    AF.matmul (AF.T X0) D = Ok P /\
    cost W0 X0 Y0 1 = Ok (Jv, dJv) /\
    AF.elem dJv 1 0 <>
      (1 / INR (AF.d0 Y0)) * AF.elem P 1 0 + mask 1 1 * AF.elem W0 1 0.
Proof.
  do 5 eexists.
  split; [exact well_shaped_0|].
  do 4 (split; [shapes; reflexivity|]).
  unfold mask; cbn. lra.
Qed.

(** C1, amended: on well-shaped operands [cost] returns a gradient of the
    shape of W whose entries are (1/m) * ((Xt . D) + mask * W), with
    D = H - Y and H = predict(X, W): the penalty term is divided by the
    number of samples too. *)
Theorem cost_gradient (W X Y : AF.array R) (lambda : R) :
  well_shaped W X Y ->
  exists H D P Jv dJv,
    predict X W = Ok H /\ AF.sub H Y = Ok D /\
    AF.matmul (AF.T X) D = Ok P /\
    cost W X Y lambda = Ok (Jv, dJv) /\
    AF.d0 dJv = AF.d0 W /\ AF.d1 dJv = AF.d1 W /\
    forall r c, (r < AF.d0 W)%nat -> (c < AF.d1 W)%nat ->
      AF.elem dJv r c =
        (1 / INR (AF.d0 Y)) * (AF.elem P r c + mask lambda r * AF.elem W r c).
Proof.
  intros Hs.
  destruct (cost_eval W X Y lambda Hs)
    as (H & D & P & lw & Jv & dJv & E1 & E2 & E3 & _ & E5 & _ & _ & [S0 S1] & _ & G & L).
  exists H, D, P, Jv, dJv.
  repeat split; try assumption.
  intros r c _ _. rewrite G, L. unfold Rdiv. ring.
Qed.

Lemma cost_gradient_witness :
  well_shaped W0 X0 Y0 /\
  exists H D P Jv dJv,
    predict X0 W0 = Ok H /\ AF.sub H Y0 = Ok D /\
    AF.matmul (AF.T X0) D = Ok P /\
    cost W0 X0 Y0 1 = Ok (Jv, dJv) /\
    AF.d0 dJv = AF.d0 W0 /\ AF.d1 dJv = AF.d1 W0 /\
    forall r c, (r < AF.d0 W0)%nat -> (c < AF.d1 W0)%nat ->
      AF.elem dJv r c =
        (1 / INR (AF.d0 Y0)) * (AF.elem P r c + mask 1 r * AF.elem W0 r c).
Proof.
  split.
  - unfold well_shaped; cbn; lia.
  - apply (cost_gradient W0 X0 Y0 1). unfold well_shaped; cbn; lia.
Defined.

(** ** The loss *)

Lemma sum_n_ext (f g : nat -> R) (n : nat) :
  (forall i, f i = g i) -> AF.sum_n f n = AF.sum_n g n.
Proof.
  intros E. induction n as [|n IH]; cbn.
  - reflexivity.
  - now rewrite IH, E.
Qed.

Lemma sum_all_ext (f g : nat -> nat -> R) (r c : nat) :
  (forall i j, f i j = g i j) -> sum_all f r c = sum_all g r c.
Proof.
  intros E. unfold sum_all. apply sum_n_ext. intros i.
  apply sum_n_ext. intros j. apply E.
Qed.

(** C2: on well-shaped operands [cost] returns a loss of one entry,
    J = -(1/m) * sum over all entries of (Y * log H + (1 - Y) * log (1 - H))
        + (0.5/m) * sum over all entries of (mask * W * W),
    where H = predict(X, W) and mask is lambda with row 0 zeroed. *)
Theorem cost_loss (W X Y : AF.array R) (lambda : R) :
  well_shaped W X Y ->
  exists H Jv dJv,
    predict X W = Ok H /\
    cost W X Y lambda = Ok (Jv, dJv) /\
    AF.d0 Jv = 1%nat /\ AF.d1 Jv = 1%nat /\
    AF.elem Jv 0 0 =
      - (1 / INR (AF.d0 Y)) *
        sum_all (fun i j => AF.elem Y i j * ln (AF.elem H i j) +
                            (1 - AF.elem Y i j) * ln (1 - AF.elem H i j))
          (AF.d0 Y) (AF.d1 Y)
      + (0.5 / INR (AF.d0 Y)) *
        sum_all (fun r c => mask lambda r * AF.elem W r c * AF.elem W r c)
          (AF.d0 W) (AF.d1 W).
Proof.
  intros Hs.
  destruct (cost_eval W X Y lambda Hs)
    as (H & D & P & lw & Jv & dJv & E1 & _ & _ & _ & E5 & _ & [S0 S1] & _ & EJ & _ & L).
  exists H, Jv, dJv.
  repeat split; try assumption.
  rewrite EJ.
  rewrite (sum_all_ext (fun r c => AF.elem lw r c * AF.elem W r c)
             (fun r c => mask lambda r * AF.elem W r c * AF.elem W r c)).
  - unfold Rdiv. ring.
  - intros i j. now rewrite L.
Qed.

Lemma cost_loss_witness :
  well_shaped W0 X0 Y0 /\
  exists H Jv dJv,
    predict X0 W0 = Ok H /\
    cost W0 X0 Y0 1 = Ok (Jv, dJv) /\
    AF.d0 Jv = 1%nat /\ AF.d1 Jv = 1%nat /\
    AF.elem Jv 0 0 =
      - (1 / INR (AF.d0 Y0)) *
        sum_all (fun i j => AF.elem Y0 i j * ln (AF.elem H i j) +
                            (1 - AF.elem Y0 i j) * ln (1 - AF.elem H i j))
          (AF.d0 Y0) (AF.d1 Y0)
      + (0.5 / INR (AF.d0 Y0)) *
        sum_all (fun r c => mask 1 r * AF.elem W0 r c * AF.elem W0 r c)
          (AF.d0 W0) (AF.d1 W0).
Proof.
  split.
  - unfold well_shaped; cbn; lia.
  - apply (cost_loss W0 X0 Y0 1). unfold well_shaped; cbn; lia.
Defined.

(** ** The bias row and the penalty *)

(** C4: the mask built by [cost] is lambda everywhere except row 0, which is
    0; so in row 0 the penalty term lambdat * W is 0 and the gradient is the
    data term (1/m) * (Xt . D) alone. *)
Theorem bias_row_not_regularized (W X Y : AF.array R) (lambda : R) :
  well_shaped W X Y ->
  (AF.d0 (lambdat lambda W) = AF.d0 W /\ AF.d1 (lambdat lambda W) = AF.d1 W /\
   forall r c, AF.elem (lambdat lambda W) r c = if Nat.eqb r 0 then 0 else lambda) /\
  exists H D P lw Jv dJv,
    predict X W = Ok H /\ AF.sub H Y = Ok D /\
    AF.matmul (AF.T X) D = Ok P /\
    AF.mul (lambdat lambda W) W = Ok lw /\
    cost W X Y lambda = Ok (Jv, dJv) /\
    forall c, (c < AF.d1 W)%nat ->
      AF.elem lw 0 c = 0 /\
      AF.elem dJv 0 c = (1 / INR (AF.d0 Y)) * AF.elem P 0 c.
Proof.
  intros Hs. split.
  - repeat split.
  - destruct (cost_eval W X Y lambda Hs)
      as (H & D & P & lw & Jv & dJv & E1 & E2 & E3 & E4 & E5 & _ & _ & _ & _ & G & L).
    exists H, D, P, lw, Jv, dJv.
    repeat split; try assumption.
    + rewrite L. unfold mask; cbn. ring.
    + rewrite G, L. unfold mask, Rdiv; cbn. ring.
Qed.

Lemma bias_row_not_regularized_witness :
  well_shaped W0 X0 Y0 /\
  exists H D P lw Jv dJv,
    predict X0 W0 = Ok H /\ AF.sub H Y0 = Ok D /\
    AF.matmul (AF.T X0) D = Ok P /\
    AF.mul (lambdat 1 W0) W0 = Ok lw /\
    cost W0 X0 Y0 1 = Ok (Jv, dJv) /\
    forall c, (c < AF.d1 W0)%nat ->
      AF.elem lw 0 c = 0 /\
      AF.elem dJv 0 c = (1 / INR (AF.d0 Y0)) * AF.elem P 0 c.
Proof.
  split.
  - unfold well_shaped; cbn; lia.
  - apply (bias_row_not_regularized W0 X0 Y0 1). unfold well_shaped; cbn; lia.
Defined.

(** C5: for lambda = 0 the mask built by [cost] is 0 at every entry, the
    penalty term lambdat * W is 0 at every entry and the gradient is the data
    term (1/m) * (Xt . D). *)
Theorem zero_lambda_gradient (W X Y : AF.array R) :
  well_shaped W X Y ->
  (forall r c, AF.elem (lambdat 0 W) r c = 0) /\
  exists H D P lw Jv dJv,
    predict X W = Ok H /\ AF.sub H Y = Ok D /\
    AF.matmul (AF.T X) D = Ok P /\
    AF.mul (lambdat 0 W) W = Ok lw /\
    cost W X Y 0 = Ok (Jv, dJv) /\
    forall r c, (r < AF.d0 W)%nat -> (c < AF.d1 W)%nat ->
      AF.elem lw r c = 0 /\
      AF.elem dJv r c = (1 / INR (AF.d0 Y)) * AF.elem P r c.
Proof.
  intros Hs. split.
  - intros r c. cbn. now destruct (Nat.eqb r 0).
  - destruct (cost_eval W X Y 0 Hs)
      as (H & D & P & lw & Jv & dJv & E1 & E2 & E3 & E4 & E5 & _ & _ & _ & _ & G & L).
    exists H, D, P, lw, Jv, dJv.
    repeat split; try assumption.
    + rewrite L. unfold mask. destruct (Nat.eqb r 0); ring.
    + rewrite G, L. unfold mask, Rdiv. destruct (Nat.eqb r 0); ring.
Qed.

Lemma zero_lambda_gradient_witness :
  well_shaped W0 X0 Y0 /\
  exists H D P lw Jv dJv,
    predict X0 W0 = Ok H /\ AF.sub H Y0 = Ok D /\
    AF.matmul (AF.T X0) D = Ok P /\
    AF.mul (lambdat 0 W0) W0 = Ok lw /\
    cost W0 X0 Y0 0 = Ok (Jv, dJv) /\
    forall r c, (r < AF.d0 W0)%nat -> (c < AF.d1 W0)%nat ->
      AF.elem lw r c = 0 /\
      AF.elem dJv r c = (1 / INR (AF.d0 Y0)) * AF.elem P r c.
Proof.
  split.
  - unfold well_shaped; cbn; lia.
  - apply (zero_lambda_gradient W0 X0 Y0). unfold well_shaped; cbn; lia.
Defined.

(** ** Rounding to single precision *)

Lemma bpow_pos e : 0 < F32.bpow e.
Proof. apply powerRZ_lt. lra. Qed.

Lemma bpow_add a b : F32.bpow (a + b) = F32.bpow a * F32.bpow b.
Proof. apply powerRZ_add. lra. Qed.

Lemma bpow_nonneg_IZR e : (0 <= e)%Z -> F32.bpow e = IZR (2 ^ e).
Proof.
  intros He. unfold F32.bpow.
  rewrite <- (Z2Nat.id e He) at 1. rewrite <- pow_powerRZ.
  rewrite pow_IZR. now rewrite Z2Nat.id.
Qed.

Lemma bpow_le a b : (a <= b)%Z -> F32.bpow a <= F32.bpow b.
Proof.
  intros Hab. replace b with (a + (b - a))%Z by lia.
  rewrite bpow_add, (bpow_nonneg_IZR (b - a)) by lia.
  pose proof (bpow_pos a) as Ha.
  assert (1 <= IZR (2 ^ (b - a))).
  { apply IZR_le. pose proof (Z.pow_pos_nonneg 2 (b - a)). lia. }
  nra.
Qed.

Lemma bpow_lt_inv a b x : F32.bpow a <= x -> x < F32.bpow b -> (a < b)%Z.
Proof.
  intros H1 H2. destruct (Z_lt_le_dec a b) as [|Hle]; [assumption|].
  pose proof (bpow_le b a Hle). lra.
Qed.

Lemma bpow_inv e : F32.bpow (- e) * F32.bpow e = 1.
Proof.
  rewrite <- bpow_add. replace (- e + e)%Z with 0%Z by lia. reflexivity.
Qed.

(** The search for the unit in the last place. *)
Lemma ulp_exp_from_range n x :
  (-149 <= F32.ulp_exp_from n x <= Z.of_nat n - 149)%Z.
Proof.
  induction n as [|n IH]; cbn [F32.ulp_exp_from]; [lia|].
  destruct (Rle_dec _ x); lia.
Qed.

Lemma ulp_exp_from_low n x :
  (-149 < F32.ulp_exp_from n x)%Z ->
  F32.bpow (F32.ulp_exp_from n x + 23) <= x.
Proof.
  induction n as [|n IH]; cbn [F32.ulp_exp_from]; [lia|].
  destruct (Rle_dec _ x) as [Hle|Hn]; [intros _; exact Hle | exact IH].
Qed.

Lemma ulp_exp_from_high n x :
  (F32.ulp_exp_from n x < Z.of_nat n - 149)%Z ->
  x < F32.bpow (F32.ulp_exp_from n x + 24).
Proof.
  induction n as [|n IH]; cbn [F32.ulp_exp_from]; [lia|].
  destruct (Rle_dec _ x) as [Hle|Hn]; [lia|].
  intros _.
  pose proof (ulp_exp_from_range n x) as Hr.
  destruct (Z.eq_dec (F32.ulp_exp_from n x) (Z.of_nat n - 149)) as [E|E].
  - rewrite E. replace (Z.of_nat n - 149 + 24)%Z with (Z.of_nat n - 148 + 23)%Z by lia.
    lra.
  - apply IH. lia.
Qed.

Lemma ulp_exp_from_eq n x g :
  (-149 <= g <= Z.of_nat n - 149)%Z ->
  ((-149 < g)%Z -> F32.bpow (g + 23) <= x) ->
  x < F32.bpow (g + 24) ->
  F32.ulp_exp_from n x = g.
Proof.
  induction n as [|n IH]; cbn [F32.ulp_exp_from]; intros Hg Hlo Hhi; [lia|].
  destruct (Rle_dec _ x) as [Hle|Hn].
  - pose proof (bpow_lt_inv _ _ _ Hle Hhi). lia.
  - apply IH; try assumption.
    destruct (Z.eq_dec g (Z.of_nat n - 148)) as [E|E]; [|lia].
    exfalso. apply Hn. rewrite <- E. apply Hlo. lia.
Qed.

Lemma ulp_exp_from_mono n x y :
  x <= y -> (F32.ulp_exp_from n x <= F32.ulp_exp_from n y)%Z.
Proof.
  intros Hxy. induction n as [|n IH]; cbn [F32.ulp_exp_from]; [lia|].
  destruct (Rle_dec _ x) as [Hx|Hx], (Rle_dec _ y) as [Hy|Hy]; try lia.
  - exfalso. apply Hy. lra.
  - pose proof (ulp_exp_from_range n x). lia.
Qed.

(** Rounding to an integer. *)
Lemma Int_part_bounds t : IZR (Int_part t) <= t < IZR (Int_part t) + 1.
Proof. pose proof (base_Int_part t). lra. Qed.

Lemma rne_cases t :
  F32.rne t = Int_part t /\ t - IZR (Int_part t) <= 1 / 2 \/
  F32.rne t = (Int_part t + 1)%Z /\ 1 / 2 <= t - IZR (Int_part t).
Proof.
  unfold F32.rne.
  destruct (Rlt_dec (t - IZR (Int_part t)) (1 / 2)); [left; split; [reflexivity | lra]|].
  destruct (Rlt_dec (1 / 2) (t - IZR (Int_part t))); [right; split; [reflexivity | lra]|].
  destruct (Z.even (Int_part t)); [left | right]; split; try reflexivity; lra.
Qed.

Lemma rne_le_int t N : t <= IZR N -> (F32.rne t <= N)%Z.
Proof.
  intros Ht. pose proof (Int_part_bounds t) as [Hf1 Hf2].
  assert (Hle : (Int_part t <= N)%Z) by (apply le_IZR; lra).
  destruct (rne_cases t) as [[-> _]|[-> Hr]]; [assumption|].
  assert (Hlt : (Int_part t < N)%Z) by (apply lt_IZR; lra). lia.
Qed.

Lemma rne_ge_int t N : IZR N <= t -> (N <= F32.rne t)%Z.
Proof.
  intros Ht. pose proof (Int_part_bounds t) as [Hf1 Hf2].
  assert (Hlt : (N < Int_part t + 1)%Z) by (apply lt_IZR; rewrite plus_IZR; lra).
  destruct (rne_cases t) as [[-> _]|[-> _]]; lia.
Qed.

Lemma rne_int N : F32.rne (IZR N) = N.
Proof.
  apply Z.le_antisymm; [apply rne_le_int | apply rne_ge_int]; lra.
Qed.

Lemma rne_mono t1 t2 : t1 <= t2 -> (F32.rne t1 <= F32.rne t2)%Z.
Proof.
  intros Ht.
  pose proof (Int_part_bounds t1) as [A1 A2].
  pose proof (Int_part_bounds t2) as [B1 B2].
  assert (Hf : (Int_part t1 <= Int_part t2)%Z).
  { assert (Int_part t1 < Int_part t2 + 1)%Z by (apply lt_IZR; rewrite plus_IZR; lra).
    lia. }
  destruct (Z.eq_dec (Int_part t1) (Int_part t2)) as [E|E].
  - unfold F32.rne. rewrite E.
    destruct (Rlt_dec (t1 - IZR (Int_part t2)) (1 / 2)) as [H1|H1];
    destruct (Rlt_dec (t2 - IZR (Int_part t2)) (1 / 2)) as [H2|H2];
    destruct (Rlt_dec (1 / 2) (t1 - IZR (Int_part t2))) as [H3|H3];
    destruct (Rlt_dec (1 / 2) (t2 - IZR (Int_part t2))) as [H4|H4];
    destruct (Z.even (Int_part t2)); try lia; lra.
  - destruct (rne_cases t1) as [[-> _]|[-> _]];
    destruct (rne_cases t2) as [[-> _]|[-> _]]; lia.
Qed.

(** Rounding to single precision. *)
Lemma round_pos_eval x g N :
  (-149 <= g <= 104)%Z ->
  ((-149 < g)%Z -> F32.bpow (g + 23) <= x) ->
  x < F32.bpow (g + 24) ->
  F32.rne (x * F32.bpow (- g)) = N ->
  F32.round_pos x = IZR N * F32.bpow g.
Proof.
  intros Hg Hlo Hhi HN. unfold F32.round_pos, F32.ulp_exp.
  rewrite (ulp_exp_from_eq 253 x g); [now rewrite HN | lia | assumption | assumption].
Qed.

Lemma round_pos_nonneg x : 0 <= x -> 0 <= F32.round_pos x.
Proof.
  intros Hx. unfold F32.round_pos.
  pose proof (bpow_pos (F32.ulp_exp x)) as Hp.
  pose proof (bpow_pos (- F32.ulp_exp x)) as Hq.
  assert (Hz : (0 <= F32.rne (x * F32.bpow (- F32.ulp_exp x)))%Z).
  { apply rne_ge_int. nra. }
  apply IZR_le in Hz. nra.
Qed.

Lemma round_pos_mono x y : 0 <= x -> x <= y -> F32.round_pos x <= F32.round_pos y.
Proof.
  intros Hx Hxy. unfold F32.round_pos, F32.ulp_exp.
  pose proof (ulp_exp_from_mono 253 x y Hxy) as Hg.
  set (gx := F32.ulp_exp_from 253 x) in *.
  set (gy := F32.ulp_exp_from 253 y) in *.
  destruct (Z.eq_dec gx gy) as [E|E].
  - rewrite E. pose proof (bpow_pos gy) as Hp. pose proof (bpow_pos (- gy)) as Hq.
    assert (Hm : (F32.rne (x * F32.bpow (- gy)) <= F32.rne (y * F32.bpow (- gy)))%Z).
    { apply rne_mono. nra. }
    apply IZR_le in Hm. nra.
  - assert (Hlt : (gx < gy)%Z) by lia.
    pose proof (ulp_exp_from_range 253 y) as Hry. fold gy in Hry.
    assert (Hxh : x < F32.bpow (gx + 24)).
    { apply ulp_exp_from_high. fold gx. lia. }
    assert (Hyl : F32.bpow (gy + 23) <= y).
    { apply ulp_exp_from_low. fold gy. pose proof (ulp_exp_from_range 253 x). fold gx in H. lia. }
    assert (Hrx : IZR (F32.rne (x * F32.bpow (- gx))) * F32.bpow gx <= F32.bpow (gx + 24)).
    { assert (Hm : (F32.rne (x * F32.bpow (- gx)) <= 2 ^ 24)%Z).
      { apply rne_le_int. rewrite <- (bpow_nonneg_IZR 24) by lia.
        replace (F32.bpow 24) with (F32.bpow (gx + 24) * F32.bpow (- gx)).
        - pose proof (bpow_pos (- gx)). nra.
        - rewrite <- bpow_add. f_equal. lia. }
      apply IZR_le in Hm. rewrite <- (bpow_nonneg_IZR 24) in Hm by lia.
      replace (F32.bpow (gx + 24)) with (F32.bpow 24 * F32.bpow gx).
      - pose proof (bpow_pos gx). nra.
      - rewrite <- bpow_add. f_equal. lia. }
    assert (Hry' : F32.bpow (gy + 23) <= IZR (F32.rne (y * F32.bpow (- gy))) * F32.bpow gy).
    { assert (Hm : (2 ^ 23 <= F32.rne (y * F32.bpow (- gy)))%Z).
      { apply rne_ge_int. rewrite <- (bpow_nonneg_IZR 23) by lia.
        replace (F32.bpow 23) with (F32.bpow (gy + 23) * F32.bpow (- gy)).
        - pose proof (bpow_pos (- gy)). nra.
        - rewrite <- bpow_add. f_equal. lia. }
      apply IZR_le in Hm. rewrite <- (bpow_nonneg_IZR 23) in Hm by lia.
      replace (F32.bpow (gy + 23)) with (F32.bpow 23 * F32.bpow gy).
      - pose proof (bpow_pos gy). nra.
      - rewrite <- bpow_add. f_equal. lia. }
    pose proof (bpow_le (gx + 24) (gy + 23) ltac:(lia)). lra.
Qed.

Lemma bpow_neg e : F32.bpow (- e) = / F32.bpow e.
Proof. apply powerRZ_neg'. Qed.

Lemma bpow_pos_num p : F32.bpow (Zpos p) = IZR (2 ^ Zpos p).
Proof. apply bpow_nonneg_IZR. lia. Qed.

Lemma bpow_neg_num p : F32.bpow (Zneg p) = / IZR (2 ^ Zpos p).
Proof. rewrite <- bpow_pos_num. exact (bpow_neg (Zpos p)). Qed.

(** Writes the powers of two of the goal as numerals. *)
Ltac bpow_num :=
  repeat match goal with
    | |- context [F32.bpow ?e] =>
        let v := eval vm_compute in e in
        match v with
        | Z0 => change (F32.bpow e) with 1
        | Zpos ?p =>
            let n := eval vm_compute in (2 ^ Zpos p)%Z in
            replace (F32.bpow e) with (IZR n) by (symmetry; exact (bpow_pos_num p))
        | Zneg ?p =>
            let n := eval vm_compute in (2 ^ Zpos p)%Z in
            replace (F32.bpow e) with (/ IZR n) by (symmetry; exact (bpow_neg_num p))
        end
    end.

Lemma rne_down t f : IZR f <= t -> t - IZR f < 1 / 2 -> F32.rne t = f.
Proof.
  intros H1 H2. unfold F32.rne.
  rewrite <- (Int_part_spec t f) by lra.
  destruct (Rlt_dec (t - IZR f) (1 / 2)); [reflexivity | contradiction].
Qed.

Lemma rne_up t f : 1 / 2 < t - IZR f -> t < IZR f + 1 -> F32.rne t = (f + 1)%Z.
Proof.
  intros H1 H2. unfold F32.rne.
  rewrite <- (Int_part_spec t f) by lra.
  destruct (Rlt_dec (t - IZR f) (1 / 2)); [lra|].
  destruct (Rlt_dec (1 / 2) (t - IZR f)); [reflexivity | contradiction].
Qed.

Lemma rne_tie t f :
  t = IZR f + 1 / 2 -> F32.rne t = if Z.even f then f else (f + 1)%Z.
Proof.
  intros H1. unfold F32.rne.
  rewrite <- (Int_part_spec t f) by lra.
  destruct (Rlt_dec (t - IZR f) (1 / 2)); [lra|].
  destruct (Rlt_dec (1 / 2) (t - IZR f)); [lra | reflexivity].
Qed.

Lemma round_pos_int z : (0 <= z < 2 ^ 24)%Z -> F32.round_pos (IZR z) = IZR z.
Proof.
  intros [Hz0 Hz1]. unfold F32.round_pos, F32.ulp_exp.
  set (g := F32.ulp_exp_from 253 (IZR z)).
  assert (Hg : (g <= 0)%Z).
  { pose proof (ulp_exp_from_range 253 (IZR z)) as Hr. fold g in Hr.
    destruct (Z.eq_dec g (-149)) as [E|E]; [lia|].
    assert (Hlo : F32.bpow (g + 23) <= IZR z) by (apply ulp_exp_from_low; fold g; lia).
    assert (Hhi : IZR z < F32.bpow 24).
    { rewrite (bpow_nonneg_IZR 24) by lia. now apply IZR_lt. }
    pose proof (bpow_lt_inv _ _ _ Hlo Hhi). lia. }
  rewrite (bpow_nonneg_IZR (- g)) by lia.
  rewrite <- mult_IZR, rne_int, mult_IZR.
  rewrite <- (bpow_nonneg_IZR (- g)) by lia.
  rewrite Rmult_assoc, bpow_inv. ring.
Qed.

Lemma round_fin x v :
  0 <= x -> F32.round_pos x = v -> v < F32.bpow 128 -> F32.round x = F32.Fin v.
Proof.
  intros Hx Hv Hb. unfold F32.round.
  destruct (Rle_dec 0 x); [|contradiction].
  rewrite Hv. destruct (Rle_dec (F32.bpow 128) v); [lra | reflexivity].
Qed.

Lemma bpow_24_128 : F32.bpow 24 < F32.bpow 128.
Proof. bpow_num. apply IZR_lt. reflexivity. Qed.

Lemma round_int z : (0 <= z < 2 ^ 24)%Z -> F32.round (IZR z) = F32.Fin (IZR z).
Proof.
  intros Hz. apply round_fin.
  - apply IZR_le. lia.
  - now apply round_pos_int.
  - pose proof bpow_24_128 as Hb. rewrite (bpow_nonneg_IZR 24) in Hb by lia.
    assert (IZR z < IZR (2 ^ 24)) by (apply IZR_lt; lia). lra.
Qed.

(** Rounding stays below a representable bound. *)
Lemma round_below x B :
  0 <= x -> x <= B -> F32.round_pos B = B -> B < F32.bpow 128 ->
  F32.round x = F32.Fin (F32.round_pos x) /\ 0 <= F32.round_pos x <= B.
Proof.
  intros Hx HB Hr Hb.
  pose proof (round_pos_mono x B Hx HB) as Hm. rewrite Hr in Hm.
  pose proof (round_pos_nonneg x Hx) as Hn.
  split; [|lra]. apply round_fin; [assumption | reflexivity | lra].
Qed.

(** ** The activation function and the predictor *)

Lemma sigmoid_elem (v : AF.array R) (i j : nat) :
  AF.elem (sigmoid v) i j = 1 / (1 + exp (- AF.elem v i j)).
Proof. reflexivity. Qed.

Lemma logistic_bounds (z : R) : 0 < 1 / (1 + exp (- z)) < 1.
Proof.
  pose proof (exp_pos (- z)) as Hp.
  assert (Hd : 0 < 1 + exp (- z)) by lra.
  split.
  - apply Rdiv_lt_0_compat; lra.
  - apply (Rmult_lt_reg_r (1 + exp (- z))); [assumption|].
    unfold Rdiv. rewrite Rmult_assoc, Rinv_l by lra. lra.
Qed.

(** C6: when X has as many columns as W has rows, predict(X, W) is the
    element-wise sigmoid of the matrix product X . W, has X.rows rows and
    W.cols columns, and every entry lies in [0, 1]. *)
Theorem predict_shape_and_range (X W : AF.array R) :
  AF.d1 X = AF.d0 W ->
  exists S P,
    AF.matmul X W = Ok S /\ predict X W = Ok P /\
    AF.d0 P = AF.d0 X /\ AF.d1 P = AF.d1 W /\
    forall i j, (i < AF.d0 X)%nat -> (j < AF.d1 W)%nat ->
      AF.elem S i j = AF.sum_n (fun k => AF.elem X i k * AF.elem W k j) (AF.d1 X) /\
      AF.elem P i j = 1 / (1 + exp (- AF.elem S i j)) /\
      0 <= AF.elem P i j <= 1.
Proof.
  intros Hd.
  unfold predict, AF.matmul. rewrite Hd, Nat.eqb_refl. cbn.
  do 2 eexists. repeat split.
  - apply Rlt_le, logistic_bounds.
  - apply Rlt_le, logistic_bounds.
Qed.

Lemma predict_shape_and_range_witness :
  AF.d1 X0 = AF.d0 W0 /\
  exists S P,
    AF.matmul X0 W0 = Ok S /\ predict X0 W0 = Ok P /\
    AF.d0 P = AF.d0 X0 /\ AF.d1 P = AF.d1 W0 /\
    forall i j, (i < AF.d0 X0)%nat -> (j < AF.d1 W0)%nat ->
      AF.elem S i j = AF.sum_n (fun k => AF.elem X0 i k * AF.elem W0 k j) (AF.d1 X0) /\
      AF.elem P i j = 1 / (1 + exp (- AF.elem S i j)) /\
      0 <= AF.elem P i j <= 1.
Proof.
  split.
  - reflexivity.
  - apply (predict_shape_and_range X0 W0). reflexivity.
Defined.

(** *** [sigmoid] in single precision *)

Lemma sigmoid32_elem (v : AF.array F32.f32) (i j : nat) :
  AF.elem (sigmoid32 v) i j =
    F32.div (F32.Fin 1) (F32.add (F32.Fin 1) (F32.exp (F32.neg (AF.elem v i j)))).
Proof. reflexivity. Qed.

Lemma round_pos_1 : F32.round_pos 1 = 1.
Proof. apply (round_pos_int 1). lia. Qed.

Lemma one_below_overflow : 1 < F32.bpow 128.
Proof. bpow_num. apply IZR_lt. reflexivity. Qed.

(** 1 / (1 + y) in single precision for a rounded y >= 0: 0 when y or 1 + y
    overflows, and the rounded quotient otherwise. *)
Lemma recip_one_plus (y : R) :
  0 <= y ->
  F32.div (F32.Fin 1) (F32.add (F32.Fin 1) (F32.round y)) =
    F32.Fin (if Rle_dec (F32.bpow 128) (F32.round_pos y) then 0
             else if Rle_dec (F32.bpow 128) (F32.round_pos (1 + F32.round_pos y))
                  then 0
                  else F32.round_pos (1 / F32.round_pos (1 + F32.round_pos y))).
Proof.
  intros Hy. unfold F32.round at 1.
  destruct (Rle_dec 0 y); [|contradiction].
  destruct (Rle_dec (F32.bpow 128) (F32.round_pos y)); [reflexivity|].
  pose proof (round_pos_nonneg y Hy) as Ha.
  cbn [F32.add]. unfold F32.round at 1.
  destruct (Rle_dec 0 (1 + F32.round_pos y)); [|lra].
  destruct (Rle_dec (F32.bpow 128) (F32.round_pos (1 + F32.round_pos y)));
    [reflexivity|].
  assert (Hb : 1 <= F32.round_pos (1 + F32.round_pos y)).
  { rewrite <- round_pos_1 at 1. apply round_pos_mono; lra. }
  cbn [F32.div].
  destruct (Req_EM_T (F32.round_pos (1 + F32.round_pos y)) 0); [lra|].
  assert (Hq : 0 <= 1 / F32.round_pos (1 + F32.round_pos y) <= 1).
  { split.
    - apply Rlt_le, Rdiv_lt_0_compat; lra.
    - apply (Rmult_le_reg_r (F32.round_pos (1 + F32.round_pos y))); [lra|].
      unfold Rdiv. rewrite Rmult_assoc, Rinv_l by lra. lra. }
  pose proof one_below_overflow.
  now destruct (round_below _ 1 (proj1 Hq) (proj2 Hq) round_pos_1 ltac:(lra)) as [-> _].
Qed.

(** The smaller y, the larger 1 / (1 + y) after the three roundings. *)
Lemma recip_one_plus_order (y1 y2 : R) :
  0 <= y2 -> y2 <= y1 ->
  exists s1 s2,
    F32.div (F32.Fin 1) (F32.add (F32.Fin 1) (F32.round y1)) = F32.Fin s1 /\
    F32.div (F32.Fin 1) (F32.add (F32.Fin 1) (F32.round y2)) = F32.Fin s2 /\
    0 <= s1 /\ s1 <= s2.
Proof.
  intros H2 H12.
  rewrite (recip_one_plus y1), (recip_one_plus y2) by lra.
  do 2 eexists. split; [reflexivity|]. split; [reflexivity|].
  pose proof (round_pos_nonneg y1 ltac:(lra)) as A1.
  pose proof (round_pos_nonneg y2 H2) as A2.
  pose proof (round_pos_mono y2 y1 H2 H12) as A21.
  pose proof (round_pos_mono (1 + F32.round_pos y2) (1 + F32.round_pos y1)
                ltac:(lra) ltac:(lra)) as B21.
  assert (B1 : 1 <= F32.round_pos (1 + F32.round_pos y1)).
  { rewrite <- round_pos_1 at 1. apply round_pos_mono; lra. }
  assert (B2 : 1 <= F32.round_pos (1 + F32.round_pos y2)).
  { rewrite <- round_pos_1 at 1. apply round_pos_mono; lra. }
  assert (Q : forall b, 1 <= b -> 0 <= F32.round_pos (1 / b)).
  { intros b Hb. apply round_pos_nonneg. apply Rlt_le, Rdiv_lt_0_compat; lra. }
  destruct (Rle_dec (F32.bpow 128) (F32.round_pos y1)).
  - split; [lra|].
    destruct (Rle_dec (F32.bpow 128) (F32.round_pos y2)); [lra|].
    destruct (Rle_dec (F32.bpow 128) (F32.round_pos (1 + F32.round_pos y2)));
      [lra | now apply Q].
  - destruct (Rle_dec (F32.bpow 128) (F32.round_pos y2)); [lra|].
    destruct (Rle_dec (F32.bpow 128) (F32.round_pos (1 + F32.round_pos y1))).
    + split; [lra|].
      destruct (Rle_dec (F32.bpow 128) (F32.round_pos (1 + F32.round_pos y2)));
        [lra | now apply Q].
    + destruct (Rle_dec (F32.bpow 128) (F32.round_pos (1 + F32.round_pos y2)));
        [lra|].
      split; [now apply Q|].
      apply round_pos_mono.
      * apply Rlt_le, Rdiv_lt_0_compat; lra.
      * unfold Rdiv. rewrite !Rmult_1_l. apply Rinv_le_contravar; lra.
Qed.

Lemma exp_nat (n : nat) : exp (INR n) = exp 1 ^ n.
Proof.
  induction n as [|n IH]; [cbn; apply exp_0|].
  rewrite S_INR, exp_plus, IH. cbn [pow]. ring.
Qed.

Lemma exp_minus_30 (z : R) : 30 <= z -> 0 <= exp (- z) <= F32.bpow (-30).
Proof.
  intros Hz. split; [apply Rlt_le, exp_pos|].
  assert (H30 : exp (Ropp 30) <= F32.bpow (-30)).
  { rewrite exp_Ropp. bpow_num.
    assert (He : 1073741824 <= exp 30).
    { replace 30 with (INR 30) by (cbn; lra). rewrite exp_nat.
      pose proof (exp_ineq1_le 1) as H1.
      assert (Hp : 2 ^ 30 <= exp 1 ^ 30) by (apply pow_incr; lra).
      replace 1073741824 with (2 ^ 30) by (cbn; lra). exact Hp. }
    apply Rinv_le_contravar; lra. }
  destruct (Req_dec z 30) as [->|Hne]; [exact H30|].
  assert (exp (- z) < exp (Ropp 30)) by (apply exp_increasing; lra). lra.
Qed.

Lemma round_pos_tiny : F32.round_pos (F32.bpow (-30)) = F32.bpow (-30).
Proof.
  rewrite (round_pos_eval _ (-53) 8388608).
  - bpow_num. lra.
  - lia.
  - intros _. bpow_num. lra.
  - bpow_num. lra.
  - replace (F32.bpow (-30) * F32.bpow (- -53)) with (IZR 8388608)
      by (bpow_num; lra).
    apply rne_int.
Qed.

Lemma one_plus_tiny (a : R) :
  0 <= a <= F32.bpow (-30) -> F32.round_pos (1 + a) = 1.
Proof.
  intros [Ha0 Ha1]. revert Ha1. bpow_num. intros Ha1.
  rewrite (round_pos_eval _ (-23) 8388608).
  - bpow_num. lra.
  - lia.
  - intros _. bpow_num. lra.
  - bpow_num. lra.
  - apply rne_down; bpow_num; lra.
Qed.

(** From 30 on [sigmoid] is saturated. *)
Lemma sigmoid32_saturated (v : AF.array F32.f32) (i j : nat) (z : R) :
  AF.elem v i j = F32.Fin z -> 30 <= z ->
  AF.elem (sigmoid32 v) i j = F32.Fin 1.
Proof.
  intros Hv Hz. rewrite sigmoid32_elem, Hv. cbn [F32.neg F32.exp].
  destruct (exp_minus_30 z Hz) as [E0 E1].
  rewrite (recip_one_plus _ E0).
  pose proof (round_pos_nonneg _ E0) as A0.
  pose proof (round_pos_mono _ _ E0 E1) as A1. rewrite round_pos_tiny in A1.
  rewrite (one_plus_tiny (F32.round_pos (exp (- z)))) by lra.
  pose proof one_below_overflow as Ho.
  assert (Hs : F32.bpow (-30) < 1) by (bpow_num; lra).
  destruct (Rle_dec (F32.bpow 128) (F32.round_pos (exp (- z)))); [lra|].
  destruct (Rle_dec (F32.bpow 128) 1); [lra|].
  f_equal. replace (1 / 1) with 1 by lra. apply round_pos_1.
Qed.

(** C7, as stated, fails: 30 < 40, but in single precision 1 + exp(-30)
    and 1 + exp(-40) both round to 1 and [sigmoid] returns 1 for both. *)
Lemma sigmoid_saturates :
  30 < 40 /\
  AF.elem (sigmoid32 (AF.constant (F32.Fin 30) 1 1)) 0 0 = F32.Fin 1 /\
  AF.elem (sigmoid32 (AF.constant (F32.Fin 40) 1 1)) 0 0 = F32.Fin 1 /\
  ~ 1 < 1.
Proof.
  split; [lra|].
  split; [apply (sigmoid32_saturated _ 0 0 30); [reflexivity | lra]|].
  split; [apply (sigmoid32_saturated _ 0 0 40); [reflexivity | lra]|].
  lra.
Qed.

(** C7, amended: an entry 0 is sent by [sigmoid] to exactly 0.5, and
    [sigmoid] is monotonically non-decreasing: of two finite entries
    z1 <= z2 the images are finite and in the same order, not strictly so
    (single precision saturates), every image being 1 / (1 + exp (- z))
    with each operation rounded. *)
Theorem sigmoid_half_and_monotone :
  (forall v i j,
      AF.elem v i j = F32.Fin 0 -> AF.elem (sigmoid32 v) i j = F32.Fin 0.5) /\
  (forall v1 v2 i1 j1 i2 j2 z1 z2,
      AF.elem v1 i1 j1 = F32.Fin z1 -> AF.elem v2 i2 j2 = F32.Fin z2 ->
      z1 <= z2 ->
      exists s1 s2,
        AF.elem (sigmoid32 v1) i1 j1 = F32.Fin s1 /\
        AF.elem (sigmoid32 v2) i2 j2 = F32.Fin s2 /\
        s1 <= s2).
Proof.
  split.
  - intros v i j Hz. rewrite sigmoid32_elem, Hz. cbn [F32.neg F32.exp].
    rewrite Ropp_0, exp_0, (round_int 1) by lia. cbn [F32.add].
    replace (1 + 1) with (IZR 2) by lra. rewrite (round_int 2) by lia.
    cbn [F32.div]. destruct (Req_EM_T 2 0); [lra|].
    pose proof one_below_overflow.
    apply round_fin; [lra | | lra].
    rewrite (round_pos_eval _ (-24) 8388608).
    + bpow_num. lra.
    + lia.
    + intros _. bpow_num. lra.
    + bpow_num. lra.
    + replace (1 / 2 * F32.bpow (- -24)) with (IZR 8388608) by (bpow_num; lra).
      apply rne_int.
  - intros v1 v2 i1 j1 i2 j2 z1 z2 H1 H2 Hle.
    rewrite !sigmoid32_elem, H1, H2. cbn [F32.neg F32.exp].
    assert (He : exp (- z2) <= exp (- z1)).
    { destruct (Req_dec z1 z2) as [->|Hne]; [lra|].
      apply Rlt_le, exp_increasing. lra. }
    destruct (recip_one_plus_order (exp (- z1)) (exp (- z2))
                (Rlt_le _ _ (exp_pos _)) He) as (s1 & s2 & E1 & E2 & _ & Hs).
    now exists s1, s2.
Qed.

Lemma sigmoid_half_and_monotone_witness :
  (AF.elem (AF.constant (F32.Fin 0) 1 1) 0 0 = F32.Fin 0 /\
   AF.elem (sigmoid32 (AF.constant (F32.Fin 0) 1 1)) 0 0 = F32.Fin 0.5) /\
  (AF.elem (AF.constant (F32.Fin 0) 1 1) 0 0 = F32.Fin 0 /\
   AF.elem (AF.constant (F32.Fin 1) 1 1) 0 0 = F32.Fin 1 /\
   0 <= 1 /\
   exists s1 s2,
     AF.elem (sigmoid32 (AF.constant (F32.Fin 0) 1 1)) 0 0 = F32.Fin s1 /\
     AF.elem (sigmoid32 (AF.constant (F32.Fin 1) 1 1)) 0 0 = F32.Fin s2 /\
     s1 <= s2).
Proof.
  split.
  - split; [reflexivity|].
    apply (proj1 sigmoid_half_and_monotone). reflexivity.
  - split; [reflexivity|]. split; [reflexivity|]. split; [lra|].
    apply (proj2 sigmoid_half_and_monotone _ _ _ _ _ _ 0 1);
      [reflexivity | reflexivity | lra].
Defined.

(** ** The accuracy *)

Lemma Rltb_true (x y : R) : AF.Rltb x y = true <-> x < y.
Proof.
  unfold AF.Rltb. destruct (Rlt_dec x y); split; intros; try assumption;
    try reflexivity; try discriminate; contradiction.
Qed.

Lemma Rltb_false (x y : R) : ~ x < y -> AF.Rltb x y = false.
Proof.
  intros Hn. unfold AF.Rltb. destruct (Rlt_dec x y); [contradiction | reflexivity].
Qed.

(** Decides the comparisons of concrete numbers left in the goal. *)
Ltac compare_entries :=
  repeat match goal with
    | |- context [AF.Rltb ?a ?b] =>
        first [ rewrite (proj2 (Rltb_true a b)) by (cbn; lra)
              | rewrite (Rltb_false a b) by (cbn; lra) ];
        cbn
    end.

(** [argmax] is an index of a maximum, and the lowest one. *)
Lemma argmax_spec (f : nat -> R) (n : nat) :
  (0 < n)%nat ->
  (AF.argmax f n < n)%nat /\
  (forall j, (j < n)%nat -> f j <= f (AF.argmax f n)) /\
  (forall j, (j < AF.argmax f n)%nat -> f j < f (AF.argmax f n)).
Proof.
  induction n as [|n IH]; [lia|]. intros _.
  destruct n as [|n].
  - cbn. unfold AF.Rltb. destruct (Rlt_dec (f 0%nat) (f 0%nat)) as [Hl|Hl];
      [lra|]. repeat split; try lia. intros j Hj. replace j with 0%nat by lia. lra.
  - destruct IH as (Hb & Hmax & Hlow); [lia|].
    change (AF.argmax f (S (S n)))
      with (if AF.Rltb (f (AF.argmax f (S n))) (f (S n))
            then S n else AF.argmax f (S n)).
    destruct (AF.Rltb (f (AF.argmax f (S n))) (f (S n))) eqn:E.
    + apply Rltb_true in E. repeat split; try lia.
      * intros j Hj. destruct (Nat.eq_dec j (S n)) as [->|Hne]; [lra|].
        specialize (Hmax j ltac:(lia)). lra.
      * intros j Hj. specialize (Hmax j Hj). lra.
    + assert (Hge : ~ f (AF.argmax f (S n)) < f (S n)).
      { intros Hc. apply Rltb_true in Hc. congruence. }
      repeat split; try lia; try assumption.
      intros j Hj. destruct (Nat.eq_dec j (S n)) as [->|Hne]; [lra|].
      apply Hmax. lia.
Qed.

Lemma count_column (b : nat -> bool) (l : list nat) :
  list_sum (map (fun i => length (filter (fun _ : nat => b i) (seq 0 1))) l)
  = length (filter b l).
Proof.
  induction l as [|x l IH]; cbn.
  - reflexivity.
  - destruct (b x); cbn; now rewrite <- IH.
Qed.



Lemma accuracy_eval (P T : AF.array R) :
  AF.d0 P = AF.d0 T ->
  accuracy P T =
    Ok (F32.div (F32.mul (F32.of_Z 100) (F32.of_nat (matches P T)))
          (F32.of_nat (AF.d0 P))).
Proof.
  intros Hd.
  unfold accuracy, AF.max1, AF.eqa, AF.map2, AF.same_dims, AF.count,
    AF.count_nat, AF.elements; cbn -[list_sum filter seq F32.of_nat F32.of_Z].
  rewrite Hd, Nat.eqb_refl; cbn -[list_sum filter seq F32.of_nat F32.of_Z].
  rewrite count_column, Nat.mul_1_r.
  unfold matches, argmax_row. now rewrite Hd.
Qed.

Lemma of_nat_exact (n : nat) :
  (Z.of_nat n < 2 ^ 24)%Z -> F32.of_nat n = F32.Fin (INR n).
Proof.
  intros Hn. unfold F32.of_nat. rewrite INR_IZR_INZ. apply round_int. lia.
Qed.

Lemma round_pos_100 : F32.round_pos 100 = 100.
Proof. apply (round_pos_int 100). lia. Qed.

Lemma bpow_128_large : 1000000000000 < F32.bpow 128.
Proof. bpow_num. apply IZR_lt. reflexivity. Qed.

(** The return expression of [accuracy] on k matches out of m rows, while
    100 * m is below 2^24: the conversions and the product are exact and
    only the quotient is rounded. *)
Lemma accuracy_value_small (k m : nat) :
  (k <= m)%nat -> (1 <= Z.of_nat m <= 167772)%Z ->
  F32.div (F32.mul (F32.of_Z 100) (F32.of_nat k)) (F32.of_nat m)
    = F32.Fin (F32.round_pos (100 * INR k / INR m)) /\
  0 <= F32.round_pos (100 * INR k / INR m) <= 100.
Proof.
  intros Hk Hm.
  assert (Hmpos : 0 < INR m) by (apply lt_0_INR; lia).
  assert (Hk0 : 0 <= INR k) by apply pos_INR.
  assert (Hkm : INR k <= INR m) by now apply le_INR.
  rewrite (of_nat_exact k), (of_nat_exact m) by lia.
  unfold F32.of_Z. rewrite (round_int 100) by lia.
  cbn [F32.mul].
  replace (100 * INR k) with (IZR (100 * Z.of_nat k))
    by (rewrite mult_IZR, <- INR_IZR_INZ; reflexivity).
  rewrite round_int by lia.
  rewrite mult_IZR, <- INR_IZR_INZ.
  cbn [F32.div]. destruct (Req_EM_T (INR m) 0) as [E|_]; [lra|].
  assert (Hq : 0 <= 100 * INR k / INR m <= 100).
  { split.
    - apply Rmult_le_pos; [lra|]. apply Rlt_le, Rinv_0_lt_compat, Hmpos.
    - apply (Rmult_le_reg_r (INR m)); [assumption|].
      unfold Rdiv. rewrite Rmult_assoc, Rinv_l by lra. lra. }
  pose proof bpow_128_large as Hb.
  destruct (round_below _ 100 (proj1 Hq) (proj2 Hq) round_pos_100 ltac:(lra))
    as [Hr Hbd].
  now split.
Qed.


(** The two roundings of [accuracy] on 671089 and on 671091 rows that all
    match. *)
Lemma product_671089 : F32.round_pos (100 * 671089) = 67108896.
Proof.
  replace (100 * 671089) with 67108900 by lra.
  rewrite (round_pos_eval 67108900 3 8388612).
  - bpow_num. lra.
  - lia.
  - intros _. bpow_num. lra.
  - bpow_num. lra.
  - rewrite (rne_tie _ 8388612); [reflexivity|]. bpow_num. lra.
Qed.

Lemma quotient_671089 : F32.round_pos (67108896 / 671089) = 13107199 / 131072.
Proof.
  rewrite (round_pos_eval _ (-17) 13107199).
  - bpow_num. lra.
  - lia.
  - intros _. bpow_num. lra.
  - bpow_num. lra.
  - apply rne_down; bpow_num; lra.
Qed.

Lemma product_671091 : F32.round_pos (100 * 671091) = 67109104.
Proof.
  replace (100 * 671091) with 67109100 by lra.
  rewrite (round_pos_eval 67109100 3 8388638).
  - bpow_num. lra.
  - lia.
  - intros _. bpow_num. lra.
  - bpow_num. lra.
  - rewrite (rne_tie _ 8388637); [reflexivity|]. bpow_num. lra.
Qed.

Lemma quotient_671091 : F32.round_pos (67109104 / 671091) = 13107201 / 131072.
Proof.
  rewrite (round_pos_eval _ (-17) 13107201).
  - bpow_num. lra.
  - lia.
  - intros _. bpow_num. lra.
  - bpow_num. lra.
  - apply (rne_up _ 13107200); bpow_num; lra.
Qed.







(** ** The trainer *)

Ltac same_result :=
  match goal with
  | H1 : ?t = Ok _, H2 : ?t = Ok _ |- _ =>
      rewrite H1 in H2; inversion H2; subst; clear H2
  end.

Lemma gd_run_deterministic X Y alpha lambda n W Wf e :
  gd_run X Y alpha lambda n W Wf e ->
  forall Wf' e', gd_run X Y alpha lambda n W Wf' e' -> Wf' = Wf /\ e' = e.
Proof.
  induction 1 as [W | n W Jv dJv Hc Hlt | n W Jv dJv W' Wf e Hc Hge Hs _ IH];
    intros Wf' e' Hrun; inversion Hrun; subst;
    try (now split); try (same_result; contradiction).
  do 2 same_result.
  match goal with
  | Hr : gd_run _ _ _ _ _ _ _ _ |- _ => destruct (IH _ _ Hr) as [-> ->]
  end.
  now split.
Qed.

Lemma gd_run_evals X Y alpha lambda n W Wf e :
  gd_run X Y alpha lambda n W Wf e -> (e <= n)%nat.
Proof. induction 1; lia. Qed.

Lemma cost_shape (W X Y : AF.array R) (lambda : R) :
  well_shaped W X Y ->
  exists Jv dJv,
    cost W X Y lambda = Ok (Jv, dJv) /\
    AF.d0 Jv = 1%nat /\ AF.d1 Jv = 1%nat /\
    AF.d0 dJv = AF.d0 W /\ AF.d1 dJv = AF.d1 W.
Proof.
  intros Hs.
  destruct (cost_eval W X Y lambda Hs)
    as (H & D & P & lw & Jv & dJv & _ & _ & _ & _ & E & _ & [J0 J1] & [G0 G1] & _).
  now exists Jv, dJv.
Qed.

(** On a loss of one entry, [alltrue<bool>(J < s)] is the comparison of that
    entry. *)
Lemma alltrue_scalar (Jv : AF.array R) (s : R) :
  AF.d0 Jv = 1%nat -> AF.d1 Jv = 1%nat ->
  AF.alltrue (AF.lts Jv s) = AF.Rltb (AF.elem Jv 0 0) s.
Proof.
  intros H0 H1. unfold AF.alltrue, AF.lts, AF.map1; cbn.
  rewrite H0, H1; cbn. now rewrite !andb_true_r.
Qed.

Lemma gradient_step_shape (W dJv X Y : AF.array R) (alpha : R) :
  well_shaped W X Y ->
  AF.d0 dJv = AF.d0 W -> AF.d1 dJv = AF.d1 W ->
  exists W', AF.sub W (AF.smul alpha dJv) = Ok W' /\ well_shaped W' X Y.
Proof.
  intros Hs G0 G1.
  unfold AF.sub, AF.map2, AF.same_dims; cbn.
  rewrite G0, G1, !Nat.eqb_refl; cbn.
  eexists; split; [reflexivity|]. exact Hs.
Qed.

(** One turn of the loop, once [cost] has returned. *)
Lemma train_body_step (X Y : AF.array R) (alpha lambda : R) (s : train_state)
    (Jv dJv : AF.array R) :
  cost (Weights s) X Y lambda = Ok (Jv, dJv) ->
  AF.d0 Jv = 1%nat -> AF.d1 Jv = 1%nat ->
  train_body X Y alpha lambda s =
    if AF.Rltb (AF.elem Jv 0 0) 0.1
    then Ok (mkState (Weights s) Jv dJv (S (evals s)), true)
    else W' <- AF.sub (Weights s) (AF.smul alpha dJv) ;;
         Ok (mkState W' Jv dJv (S (evals s)), false).
Proof.
  intros Hc J0 J1. unfold train_body. rewrite Hc.
  cbn [bind fst snd J dJ Weights evals].
  now rewrite (alltrue_scalar Jv 0.1 J0 J1).
Qed.

(** The loop of [train] from any well-shaped state. *)
Lemma train_loop_run (X Y : AF.array R) (alpha lambda : R) (n : nat) :
  forall s, well_shaped (Weights s) X Y ->
  exists s' e,
    for_loop n (train_body X Y alpha lambda) s = Ok s' /\
    gd_run X Y alpha lambda n (Weights s) (Weights s') e /\
    evals s' = (evals s + e)%nat.
Proof.
  induction n as [|n IH]; intros s Hs.
  - exists s, 0%nat. cbn. repeat split; [constructor | lia].
  - destruct (cost_shape _ _ _ lambda Hs) as (Jv & dJv & Hc & J0 & J1 & G0 & G1).
    cbn [for_loop]. rewrite (train_body_step _ _ _ _ _ _ _ Hc J0 J1).
    destruct (AF.Rltb (AF.elem Jv 0 0) 0.1) eqn:E.
    + apply Rltb_true in E. cbn [bind fst snd].
      eexists; exists 1%nat. split; [reflexivity|]. cbn [Weights evals].
      split; [econstructor; eassumption | lia].
    + assert (Hge : ~ AF.elem Jv 0 0 < 0.1).
      { intros Hl. apply Rltb_true in Hl. congruence. }
      destruct (gradient_step_shape _ _ _ _ alpha Hs G0 G1) as (W' & Hsub & Hs').
      rewrite Hsub. cbn [bind fst snd].
      destruct (IH (mkState W' Jv dJv (S (evals s))) Hs') as (s' & e & Hl & Hr & He).
      exists s', (S e). split; [exact Hl|]. cbn in Hr, He.
      split; [econstructor; eassumption | lia].
Qed.

(** C3: for X of m rows and Y of m rows, m at least 1, [train] returns; it
    starts from the all-zero W of X.cols rows and Y.cols columns and runs
    at most max_iter iterations, each of which evaluates (J, dJ) by [cost],
    ends the run with the current W if J < 0.1, and otherwise replaces W by
    W - alpha * dJ; the W current at the end is the result, and no other
    such run exists. *)
Theorem train_gradient_descent (X Y : AF.array R) (alpha lambda : R) (maxiter : Z) :
  AF.d0 X = AF.d0 Y -> (1 <= AF.d0 Y)%nat ->
  exists s,
    train_run X Y alpha lambda maxiter = Ok s /\
    train X Y alpha lambda maxiter = Ok (Weights s) /\
    gd_run X Y alpha lambda (Z.to_nat maxiter)
      (AF.constant 0 (AF.d1 X) (AF.d1 Y)) (Weights s) (evals s) /\
    (evals s <= Z.to_nat maxiter)%nat /\
    forall Wf e,
      gd_run X Y alpha lambda (Z.to_nat maxiter)
        (AF.constant 0 (AF.d1 X) (AF.d1 Y)) Wf e ->
      Wf = Weights s /\ e = evals s.
Proof.
  intros Hd Hm.
  assert (Hs : well_shaped (Weights (train_init X Y)) X Y).
  { unfold well_shaped; cbn. repeat split; assumption. }
  destruct (train_loop_run X Y alpha lambda (Z.to_nat maxiter) _ Hs)
    as (s & e & Hl & Hr & He).
  cbn in He, Hr. subst e.
  exists s. unfold train, train_run. rewrite Hl. cbn.
  repeat split; try assumption.
  - eapply gd_run_evals. exact Hr.
  - eapply gd_run_deterministic; eassumption.
  - eapply gd_run_deterministic; eassumption.
Qed.

Lemma train_gradient_descent_witness :
  AF.d0 X0 = AF.d0 Y0 /\ (1 <= AF.d0 Y0)%nat /\
  exists s,
    train_run X0 Y0 0.5 0 3 = Ok s /\
    train X0 Y0 0.5 0 3 = Ok (Weights s) /\
    gd_run X0 Y0 0.5 0 (Z.to_nat 3)
      (AF.constant 0 (AF.d1 X0) (AF.d1 Y0)) (Weights s) (evals s) /\
    (evals s <= Z.to_nat 3)%nat /\
    forall Wf e,
      gd_run X0 Y0 0.5 0 (Z.to_nat 3)
        (AF.constant 0 (AF.d1 X0) (AF.d1 Y0)) Wf e ->
      Wf = Weights s /\ e = evals s.
Proof.
  split; [reflexivity|]. split; [cbn; lia|].
  apply (train_gradient_descent X0 Y0 0.5 0 3); [reflexivity | cbn; lia].
Defined.

(** C9: when max_iter is not positive, [train] returns the all-zero matrix
    of X.cols rows and Y.cols columns, and [cost] is not called at all. *)
Theorem train_no_iterations (X Y : AF.array R) (alpha lambda : R) (maxiter : Z) :
  (maxiter <= 0)%Z ->
  train X Y alpha lambda maxiter = Ok (AF.constant 0 (AF.d1 X) (AF.d1 Y)) /\
  exists s,
    train_run X Y alpha lambda maxiter = Ok s /\
    evals s = 0%nat /\
    AF.d0 (Weights s) = AF.d1 X /\ AF.d1 (Weights s) = AF.d1 Y /\
    forall r c, AF.elem (Weights s) r c = 0.
Proof.
  intros Hle.
  assert (Hn : Z.to_nat maxiter = 0%nat) by lia.
  unfold train, train_run. rewrite Hn. cbn.
  split; [reflexivity|].
  eexists; split; [reflexivity|]. cbn. repeat split.
Qed.

Lemma train_no_iterations_witness :
  (-1 <= 0)%Z /\
  train X0 Y0 0.1 1 (-1) = Ok (AF.constant 0 (AF.d1 X0) (AF.d1 Y0)) /\
  exists s,
    train_run X0 Y0 0.1 1 (-1) = Ok s /\
    evals s = 0%nat /\
    AF.d0 (Weights s) = AF.d1 X0 /\ AF.d1 (Weights s) = AF.d1 Y0 /\
    forall r c, AF.elem (Weights s) r c = 0.
Proof.
  split; [lia|].
  apply (train_no_iterations X0 Y0 0.1 1 (-1)). lia.
Defined.

(** ** The model on the sample inputs *)

(** Row 0 of [P1] has its maximum at index 1; row 1 is a tie, which goes to
    index 0: both rows agree with [T1]. *)
Example accuracy_P1_T1 : accuracy P1 T1 = Ok (F32.Fin 100).
Proof.
  rewrite accuracy_eval by reflexivity.
  assert (Hm : matches P1 T1 = 2%nat).
  { unfold matches, argmax_row; cbn. compare_entries. reflexivity. }
  rewrite Hm. change (AF.d0 P1) with 2%nat.
  destruct (accuracy_value_small 2 2 (le_n _) ltac:(lia)) as [-> _].
  do 2 f_equal.
  replace (100 * INR 2 / INR 2) with 100 by (cbn; lra).
  apply round_pos_100.
Qed.

(** With the two columns of the target exchanged no row agrees. *)
Example accuracy_T1_swapped :
  accuracy (AF.map1 (fun x => 1 - x) T1) T1 = Ok (F32.Fin 0).
Proof.
  rewrite accuracy_eval by reflexivity.
  assert (Hm : matches (AF.map1 (fun x => 1 - x) T1) T1 = 0%nat).
  { unfold matches, argmax_row; cbn. compare_entries. reflexivity. }
  rewrite Hm. change (AF.d0 (AF.map1 (fun x => 1 - x) T1)) with 2%nat.
  destruct (accuracy_value_small 0 2 ltac:(lia) ltac:(lia)) as [-> _].
  do 2 f_equal.
  replace (100 * INR 0 / INR 2) with 0 by (cbn; lra).
  apply (round_pos_int 0). lia.
Qed.

(** The gradient on the sample operands: the penalty entry is halved. *)
Example cost_gradient_W0 :
  exists Jv dJv, cost W0 X0 Y0 1 = Ok (Jv, dJv) /\
    AF.elem dJv 0 0 = 0 /\ AF.elem dJv 1 0 = 0.5.
Proof.
  do 2 eexists. split; [shapes; reflexivity|].
  cbn. split; lra.
Qed.

(** ** Shape errors of [cost] *)

Ltac decide_shapes :=
  repeat match goal with
    | |- context [Nat.eqb ?a ?b] =>
        destruct (Nat.eqb_spec a b); subst; cbn
    end.

(** The shape checks of [cost], one by one. *)
Lemma cost_shapes (W X Y : AF.array R) (lambda : R) :
  (shapes_agree W X Y ->
   exists Jv dJv, cost W X Y lambda = Ok (Jv, dJv) /\
     AF.d0 Jv = 1%nat /\ AF.d1 Jv = 1%nat /\
     AF.d0 dJv = AF.d0 W /\ AF.d1 dJv = AF.d1 W) /\
  (~ shapes_agree W X Y -> cost W X Y lambda = Err ShapeMismatch).
Proof.
  unfold shapes_agree.
  destruct W as [wn wk w], X as [xm xn x], Y as [ym yk y]; cbn.
  split.
  - intros (H1 & H2 & H3); subst.
    do 2 eexists. split; [shapes; reflexivity|]. repeat split.
  - intros Hn.
    unfold cost, predict, sigmoid, lambdat, AF.matmul, AF.mul, AF.add, AF.sub,
      AF.map2, AF.same_dims; cbn.
    decide_shapes; try reflexivity; exfalso; apply Hn; repeat split; congruence.
Qed.

(** X1: on non-empty operands [cost] returns exactly when their shapes
    agree (X is m x n, W is n x k, Y is m x k), and then the gradient has
    the shape of W; when the shapes disagree it fails with
    ShapeMismatch. *)
Theorem cost_shape_errors (W X Y : AF.array R) (lambda : R) :
  nonempty W -> nonempty X -> nonempty Y ->
  (shapes_agree W X Y ->
   exists Jv dJv, cost W X Y lambda = Ok (Jv, dJv) /\
     AF.d0 dJv = AF.d0 W /\ AF.d1 dJv = AF.d1 W) /\
  (~ shapes_agree W X Y -> cost W X Y lambda = Err ShapeMismatch).
Proof.
  intros _ _ _. split.
  - intros Hs.
    destruct (cost_shapes W X Y lambda) as [Hok _].
    destruct (Hok Hs) as (Jv & dJv & Hc & _ & _ & G0 & G1).
    now exists Jv, dJv.
  - apply cost_shapes.
Qed.

Lemma cost_shape_errors_witness :
  nonempty W0 /\ nonempty X0 /\ nonempty Y0 /\
  nonempty (AF.constant 0 3 1) /\
  (shapes_agree W0 X0 Y0 /\
   exists Jv dJv, cost W0 X0 Y0 1 = Ok (Jv, dJv) /\
     AF.d0 dJv = AF.d0 W0 /\ AF.d1 dJv = AF.d1 W0) /\
  (~ shapes_agree W0 X0 (AF.constant 0 3 1) /\
   cost W0 X0 (AF.constant 0 3 1) 1 = Err ShapeMismatch).
Proof.
  assert (NW : nonempty W0) by (unfold nonempty; cbn; lia).
  assert (NX : nonempty X0) by (unfold nonempty; cbn; lia).
  assert (NY : nonempty Y0) by (unfold nonempty; cbn; lia).
  assert (NZ : nonempty (AF.constant 0 3 1)) by (unfold nonempty; cbn; lia).
  split; [exact NW|]. split; [exact NX|]. split; [exact NY|].
  split; [exact NZ|]. split; split.
  - unfold shapes_agree; cbn; lia.
  - apply (proj1 (cost_shape_errors W0 X0 Y0 1 NW NX NY)).
    unfold shapes_agree; cbn; lia.
  - unfold shapes_agree; cbn; lia.
  - apply (proj2 (cost_shape_errors W0 X0 (AF.constant 0 3 1) 1 NW NX NZ)).
    unfold shapes_agree; cbn; lia.
Defined.

(** ** Shapes and errors of [train] *)

(** A turn of the loop that returns has called [cost] once and left the
    shape of the weights as it was. *)
Lemma train_body_keeps (X Y : AF.array R) (alpha lambda : R)
    (s s' : train_state) (b : bool) :
  train_body X Y alpha lambda s = Ok (s', b) ->
  AF.d0 (Weights s') = AF.d0 (Weights s) /\
  AF.d1 (Weights s') = AF.d1 (Weights s) /\
  evals s' = S (evals s) /\
  AF.alltrue (AF.lts (J s') 0.1) = b.
Proof.
  unfold train_body.
  destruct (cost (Weights s) X Y lambda) as [[Jv dJv]|e];
    cbn [bind fst snd J dJ Weights evals]; [|discriminate].
  destruct (AF.alltrue (AF.lts Jv 0.1)) eqn:E.
  - intros Heq; inversion Heq; subst; cbn [J dJ Weights evals].
    now repeat split.
  - unfold AF.sub, AF.map2.
    destruct (AF.same_dims (Weights s) (AF.smul alpha dJv));
      cbn [bind]; [|discriminate].
    intros Heq; inversion Heq; subst; cbn [J dJ Weights evals AF.d0 AF.d1].
    now repeat split.
Qed.

Lemma for_loop_keeps (X Y : AF.array R) (alpha lambda : R) (n : nat) :
  forall s s',
    for_loop n (train_body X Y alpha lambda) s = Ok s' ->
    AF.d0 (Weights s') = AF.d0 (Weights s) /\
    AF.d1 (Weights s') = AF.d1 (Weights s) /\
    (evals s <= evals s' <= evals s + n)%nat.
Proof.
  induction n as [|n IH]; intros s s'; cbn [for_loop].
  - intros Heq; inversion Heq; subst. repeat split; lia.
  - destruct (train_body X Y alpha lambda s) as [[s1 b]|e] eqn:Eb;
      cbn [bind fst snd]; [|discriminate].
    destruct (train_body_keeps _ _ _ _ _ _ _ Eb) as (K0 & K1 & Ke & _).
    destruct b.
    + intros Heq; inversion Heq; subst. repeat split; try assumption; lia.
    + intros Hl. destruct (IH _ _ Hl) as (L0 & L1 & Le).
      repeat split; try congruence; lia.
Qed.

(** X2: whatever the operands and the parameters, a matrix returned by
    [train] has X.cols rows and Y.cols columns. *)
Theorem train_result_shape (X Y : AF.array R) (alpha lambda : R) (maxiter : Z)
    (Wf : AF.array R) :
  train X Y alpha lambda maxiter = Ok Wf ->
  AF.d0 Wf = AF.d1 X /\ AF.d1 Wf = AF.d1 Y.
Proof.
  unfold train, train_run.
  destruct (for_loop (Z.to_nat maxiter) (train_body X Y alpha lambda)
              (train_init X Y)) as [s|e] eqn:El; cbn; [|discriminate].
  intros Heq; inversion Heq; subst.
  destruct (for_loop_keeps _ _ _ _ _ _ _ El) as (L0 & L1 & _).
  cbn in L0, L1. now split.
Qed.

Lemma train_loop_returns (X Y : AF.array R) (alpha lambda : R) (n : nat) :
  forall s, shapes_agree (Weights s) X Y ->
  exists s', for_loop n (train_body X Y alpha lambda) s = Ok s'.
Proof.
  induction n as [|n IH]; intros s Hs; cbn [for_loop].
  - now exists s.
  - destruct (proj1 (cost_shapes _ _ _ lambda) Hs)
      as (Jv & dJv & Hc & _ & _ & G0 & G1).
    unfold train_body at 1. rewrite Hc. cbn [bind fst snd J dJ Weights evals].
    destruct (AF.alltrue (AF.lts Jv 0.1)).
    + cbn. eexists; reflexivity.
    + unfold AF.sub, AF.map2, AF.same_dims, AF.smul, AF.map1. cbn.
      rewrite G0, G1, !Nat.eqb_refl. cbn.
      apply IH. exact Hs.
Qed.

Lemma train_result_shape_witness :
  exists Wf, train X0 Y0 0.5 1 3 = Ok Wf /\
    AF.d0 Wf = AF.d1 X0 /\ AF.d1 Wf = AF.d1 Y0.
Proof.
  destruct (train_loop_returns X0 Y0 0.5 1 3 (train_init X0 Y0)) as (s & Hl).
  - unfold shapes_agree; cbn; lia.
  - assert (E : train X0 Y0 0.5 1 3 = Ok (Weights s)).
    { unfold train, train_run. change (Z.to_nat 3) with 3%nat. now rewrite Hl. }
    exists (Weights s). split; [exact E|].
    exact (train_result_shape X0 Y0 0.5 1 3 (Weights s) E).
Defined.

(** X3: on non-empty X and Y, [train] returns for every max_iter when X
    and Y have the same row count; when their row counts differ and at
    least one iteration is asked for, it fails with ShapeMismatch, in the
    first call of [cost]. *)
Theorem train_shape_errors (X Y : AF.array R) (alpha lambda : R) (maxiter : Z) :
  nonempty X -> nonempty Y ->
  (AF.d0 X = AF.d0 Y -> exists Wf, train X Y alpha lambda maxiter = Ok Wf) /\
  ((1 <= maxiter)%Z -> AF.d0 X <> AF.d0 Y ->
   train X Y alpha lambda maxiter = Err ShapeMismatch).
Proof.
  intros _ _. split.
  - intros Hd.
    assert (Hs : shapes_agree (Weights (train_init X Y)) X Y).
    { unfold shapes_agree; cbn. now repeat split. }
    destruct (train_loop_returns X Y alpha lambda (Z.to_nat maxiter) _ Hs)
      as (s & Hl).
    exists (Weights s). unfold train, train_run. now rewrite Hl.
  - intros Hm Hd.
    destruct (Z.to_nat maxiter) as [|n] eqn:En; [lia|].
    unfold train, train_run. rewrite En. cbn [for_loop].
    unfold train_body at 1.
    rewrite (proj2 (cost_shapes _ _ _ lambda)); [reflexivity|].
    unfold shapes_agree; cbn. tauto.
Qed.

Lemma train_shape_errors_witness :
  nonempty X0 /\ nonempty Y0 /\ nonempty (AF.constant 0 3 1) /\
  (AF.d0 X0 = AF.d0 Y0 /\ exists Wf, train X0 Y0 0.5 1 3 = Ok Wf) /\
  ((1 <= 3)%Z /\ AF.d0 X0 <> AF.d0 (AF.constant 0 3 1 : AF.array R) /\
   train X0 (AF.constant 0 3 1) 0.5 1 3 = Err ShapeMismatch).
Proof.
  assert (NX : nonempty X0) by (unfold nonempty; cbn; lia).
  assert (NY : nonempty Y0) by (unfold nonempty; cbn; lia).
  assert (NZ : nonempty (AF.constant 0 3 1)) by (unfold nonempty; cbn; lia).
  split; [exact NX|]. split; [exact NY|]. split; [exact NZ|]. split.
  - split; [reflexivity|].
    apply (proj1 (train_shape_errors X0 Y0 0.5 1 3 NX NY)). reflexivity.
  - split; [lia|]. split; [cbn; lia|].
    apply (proj2 (train_shape_errors X0 (AF.constant 0 3 1) 0.5 1 3 NX NZ));
      cbn; lia.
Defined.

(** ** Further properties of [accuracy] *)

(** X4: [accuracy] compares the row counts of its operands and nothing
    else: with equal row counts it returns, whatever the column counts, and
    with different row counts it fails with ShapeMismatch. *)
Theorem accuracy_shape_errors (P T : AF.array R) :
  (AF.d0 P = AF.d0 T -> exists a, accuracy P T = Ok a) /\
  (AF.d0 P <> AF.d0 T -> accuracy P T = Err ShapeMismatch).
Proof.
  split.
  - intros Hd. eexists. now apply accuracy_eval.
  - intros Hd. unfold accuracy, AF.max1, AF.eqa, AF.map2, AF.same_dims.
    cbn [AF.d0 AF.d1].
    destruct (Nat.eqb_spec (AF.d0 P) (AF.d0 T)); [contradiction | reflexivity].
Qed.

Lemma accuracy_shape_errors_witness :
  (AF.d0 P1 = AF.d0 (AF.constant 0 2 5 : AF.array R) /\
   exists a, accuracy P1 (AF.constant 0 2 5) = Ok a) /\
  (AF.d0 P1 <> AF.d0 (AF.constant 0 3 2 : AF.array R) /\
   accuracy P1 (AF.constant 0 3 2) = Err ShapeMismatch).
Proof.
  split.
  - split; [reflexivity|].
    apply (proj1 (accuracy_shape_errors P1 (AF.constant 0 2 5))). reflexivity.
  - split; [cbn; lia|].
    apply (proj2 (accuracy_shape_errors P1 (AF.constant 0 3 2))). cbn; lia.
Defined.

Lemma matches_sym (P T : AF.array R) :
  AF.d0 P = AF.d0 T -> matches P T = matches T P.
Proof.
  intros Hd. unfold matches. rewrite Hd. f_equal.
  apply filter_ext. intros i. apply Nat.eqb_sym.
Qed.

(** X5: [accuracy] does not depend on the order of its two operands, in
    its value and in its failure alike. *)
Theorem accuracy_symmetric (P T : AF.array R) :
  accuracy P T = accuracy T P.
Proof.
  destruct (Nat.eq_dec (AF.d0 P) (AF.d0 T)) as [Hd|Hd].
  - rewrite (accuracy_eval P T Hd), (accuracy_eval T P (eq_sym Hd)).
    now rewrite (matches_sym P T Hd), Hd.
  - unfold accuracy, AF.max1, AF.eqa, AF.map2, AF.same_dims.
    cbn [AF.d0 AF.d1].
    destruct (Nat.eqb_spec (AF.d0 P) (AF.d0 T)); [contradiction|].
    destruct (Nat.eqb_spec (AF.d0 T) (AF.d0 P)); [congruence | reflexivity].
Qed.

(** ** [predict] at the weights [train] starts from *)

Lemma sum_n_zero (f : nat -> R) (n : nat) :
  (forall i, f i = 0) -> AF.sum_n f n = 0.
Proof.
  intros Hz. induction n as [|n IH]; cbn; [reflexivity|].
  rewrite IH, Hz. lra.
Qed.

Lemma sum_n_const (c : R) (n : nat) :
  AF.sum_n (fun _ => c) n = INR n * c.
Proof.
  induction n as [|n IH]; [cbn; lra|].
  rewrite S_INR. cbn [AF.sum_n]. rewrite IH. lra.
Qed.

Lemma logistic_0 : 1 / (1 + exp (- 0)) = 1 / 2.
Proof. rewrite Ropp_0, exp_0. lra. Qed.

(** X8: with all weights 0 every prediction is 0.5, whatever the
    features. *)
Theorem predict_zero_weights (X : AF.array R) (k : nat) :
  exists P, predict X (AF.constant 0 (AF.d1 X) k) = Ok P /\
    AF.d0 P = AF.d0 X /\ AF.d1 P = k /\
    forall i j, AF.elem P i j = 0.5.
Proof.
  unfold predict, AF.matmul; cbn. rewrite Nat.eqb_refl; cbn.
  eexists; split; [reflexivity|]. repeat split.
  intros i j; cbn.
  rewrite sum_n_zero by (intros; ring). rewrite logistic_0. lra.
Qed.

(** ** The first iteration of [train] *)

Lemma ln_half : ln (1 / 2) = - ln 2.
Proof. unfold Rdiv. rewrite Rmult_1_l. apply ln_Rinv. lra. Qed.

Lemma ln_2_above_threshold : 0.1 < ln 2.
Proof.
  assert (He : exp 0.1 < 2).
  { pose proof (exp_ineq1 (- 0.1) ltac:(lra)) as Hb.
    pose proof (exp_pos 0.1) as Ha.
    assert (Hab : exp 0.1 * exp (- 0.1) = 1).
    { rewrite <- exp_plus. replace (0.1 + - 0.1) with 0 by lra. apply exp_0. }
    nra. }
  rewrite <- (ln_exp 0.1). apply ln_increasing; [apply exp_pos | exact He].
Qed.

(** [cost] at the weights [train] starts from. *)
Lemma cost_zero_weights (X Y : AF.array R) (lambda : R) :
  AF.d0 X = AF.d0 Y -> (1 <= AF.d0 Y)%nat ->
  exists Jv dJv,
    cost (AF.constant 0 (AF.d1 X) (AF.d1 Y)) X Y lambda = Ok (Jv, dJv) /\
    AF.d0 Jv = 1%nat /\ AF.d1 Jv = 1%nat /\
    AF.d0 dJv = AF.d1 X /\ AF.d1 dJv = AF.d1 Y /\
    AF.elem Jv 0 0 = INR (AF.d1 Y) * ln 2 /\
    forall r c, AF.elem dJv r c =
      AF.sum_n (fun i => AF.elem X i r * (0.5 - AF.elem Y i c)) (AF.d0 Y)
      / INR (AF.d0 Y).
Proof.
  intros Hd Hm.
  destruct X as [xm xn x], Y as [ym yk y]; cbn in *; subst.
  assert (Hpos : 0 < INR ym) by (apply lt_0_INR; lia).
  do 2 eexists. split; [shapes; reflexivity|]. cbn.
  repeat split.
  - rewrite (sum_n_ext _ (fun _ => INR yk * (- ln 2))).
    + rewrite sum_n_const.
      rewrite (sum_n_zero (fun i => AF.sum_n _ yk)).
      * field. lra.
      * intros i. apply sum_n_zero. intros j. ring.
    + intros i. rewrite (sum_n_ext _ (fun _ => - ln 2)).
      * apply sum_n_const.
      * intros j. rewrite sum_n_zero by (intros; ring).
        rewrite logistic_0.
        replace (1 - 1 / 2) with (1 / 2) by lra.
        rewrite ln_half. ring.
  - intros r c. f_equal.
    rewrite Rmult_0_r, Rplus_0_r.
    apply sum_n_ext. intros i.
    rewrite sum_n_zero by (intros; ring). rewrite logistic_0. lra.
Qed.





(** ** The iteration budget *)

Lemma for_loop_budget (X Y : AF.array R) (alpha lambda : R) (n : nat) :
  forall s0 s n',
    (1 <= n)%nat ->
    for_loop n (train_body X Y alpha lambda) s0 = Ok s ->
    AF.alltrue (AF.lts (J s) 0.1) = true ->
    (n <= n')%nat ->
    for_loop n' (train_body X Y alpha lambda) s0 = Ok s.
Proof.
  induction n as [|n IH]; intros s0 s n' Hn Hl Hlt Hle; [lia|].
  destruct n' as [|n']; [lia|].
  cbn [for_loop] in *.
  destruct (train_body X Y alpha lambda s0) as [[s1 b]|e] eqn:Eb;
    cbn [bind fst snd] in *; [|discriminate].
  destruct (train_body_keeps _ _ _ _ _ _ _ Eb) as (_ & _ & _ & Hb).
  destruct b; [exact Hl|].
  destruct n as [|n].
  - cbn in Hl. inversion Hl; subst. congruence.
  - apply (IH s1 s n'); [lia | exact Hl | exact Hlt | lia].
Qed.

(** X12: when a run of [train] with at least one iteration ends with its
    last loss below 0.1, every larger max_iter gives the same run and the
    same weights: the iterations left over are never used. *)
Theorem train_budget_stable (X Y : AF.array R) (alpha lambda : R)
    (maxiter maxiter' : Z) (s : train_state) :
  (1 <= maxiter)%Z ->
  train_run X Y alpha lambda maxiter = Ok s ->
  AF.alltrue (AF.lts (J s) 0.1) = true ->
  (maxiter <= maxiter')%Z ->
  train_run X Y alpha lambda maxiter' = Ok s /\
  train X Y alpha lambda maxiter' = train X Y alpha lambda maxiter.
Proof.
  intros Hm Hr Hlt Hle.
  assert (Hr' : train_run X Y alpha lambda maxiter' = Ok s).
  { unfold train_run in *.
    apply (for_loop_budget X Y alpha lambda (Z.to_nat maxiter)); try assumption; lia. }
  split; [exact Hr'|]. unfold train. now rewrite Hr, Hr'.
Qed.

(** On one sample with label 1 and the step 20 the first update sets the
    weight to 10, and the second loss, ln (1 + exp (-10)), is below 0.1. *)
Lemma converged_run :
  exists s, train_run Xc Yc 20 0 2 = Ok s /\
    AF.alltrue (AF.lts (J s) 0.1) = true.
Proof.
  destruct (cost_zero_weights Xc Yc 0 eq_refl ltac:(cbn; lia))
    as (Jv0 & dJv0 & Hc0 & J00 & J01 & G00 & G01 & HJ0 & HG0).
  cbn [Xc Yc AF.constant AF.d0 AF.d1] in Hc0, G00, G01, HJ0.
  set (W1 := AF.mkArray 1 1 (fun i j => 0 - 20 * AF.elem dJv0 i j)).
  assert (HW1 : AF.elem W1 0 0 = 10).
  { cbn. rewrite HG0. cbn. lra. }
  assert (Hs1 : well_shaped W1 Xc Yc) by (unfold well_shaped; cbn; lia).
  destruct (cost_eval W1 Xc Yc 0 Hs1)
    as (H & D & P & lw & Jv1 & dJv1 & E1 & _ & _ & _ & Hc1 & _ & [J10 J11]
        & _ & EJ1 & _ & L1).
  assert (HH : AF.elem H 0 0 = / (1 + exp (- 10))).
  { unfold predict, AF.matmul in E1. cbn in E1. inversion E1; subst H. cbn.
    rewrite HG0. cbn.
    match goal with
    | |- 1 / (1 + exp (- ?a)) = _ => replace a with 10 by lra
    end.
    unfold Rdiv. apply Rmult_1_l. }
  assert (Hlt : AF.elem Jv1 0 0 < 0.1).
  { rewrite EJ1. unfold sum_all. cbn. rewrite L1, HH. unfold mask. cbn.
    pose proof (exp_pos (- 10)) as Hp.
    rewrite ln_Rinv by lra.
    assert (Hsmall : 1 + exp (- 10) < exp 0.1).
    { pose proof (exp_ineq1 0.1 ltac:(lra)) as Hb.
      pose proof (exp_ineq1 10 ltac:(lra)) as Hc.
      assert (Hab : exp 10 * exp (- 10) = 1).
      { rewrite <- exp_plus. replace (10 + - 10) with 0 by lra. apply exp_0. }
      nra. }
    assert (Hone : 0 < 1 + exp (- 10)) by lra.
    pose proof (ln_increasing _ _ Hone Hsmall) as Hln.
    rewrite ln_exp in Hln. lra. }
  assert (Hsub : AF.sub (Weights (train_init Xc Yc)) (AF.smul 20 dJv0) = Ok W1).
  { unfold AF.sub, AF.map2, AF.same_dims; cbn. now rewrite G00, G01. }
  exists (mkState W1 Jv1 dJv1 2). split.
  - unfold train_run. change (Z.to_nat 2) with 2%nat. cbn [for_loop].
    rewrite (train_body_step Xc Yc 20 0 (train_init Xc Yc) Jv0 dJv0 Hc0 J00 J01).
    rewrite Rltb_false.
    + rewrite Hsub. cbn [bind fst snd].
      change (S (evals (train_init Xc Yc))) with 1%nat.
      rewrite (train_body_step Xc Yc 20 0 (mkState W1 Jv0 dJv0 1) Jv1 dJv1 Hc1 J10 J11).
      rewrite (proj2 (Rltb_true _ _) Hlt). reflexivity.
    + rewrite HJ0. pose proof ln_2_above_threshold. cbn. lra.
  - cbn [J]. rewrite (alltrue_scalar Jv1 0.1 J10 J11).
    now apply Rltb_true.
Qed.

Lemma train_budget_stable_witness :
  exists s,
    (1 <= 2)%Z /\ train_run Xc Yc 20 0 2 = Ok s /\
    AF.alltrue (AF.lts (J s) 0.1) = true /\ (2 <= 500)%Z /\
    train_run Xc Yc 20 0 500 = Ok s /\
    train Xc Yc 20 0 500 = train Xc Yc 20 0 2.
Proof.
  destruct converged_run as (s & Hr & Hlt).
  exists s. split; [lia|]. split; [exact Hr|]. split; [exact Hlt|].
  split; [lia|].
  apply (train_budget_stable Xc Yc 20 0 2 500 s); [lia | exact Hr | exact Hlt | lia].
Defined.

(** ** The bias column of [lr_demo] *)

Lemma sum_n_shift (f : nat -> R) (n : nat) :
  AF.sum_n f (S n) = f 0%nat + AF.sum_n (fun k => f (S k)) n.
Proof.
  induction n as [|n IH].
  - cbn. lra.
  - change (AF.sum_n f (S (S n))) with (AF.sum_n f (S n) + f (S n)).
    rewrite IH. cbn [AF.sum_n]. lra.
Qed.

(** X13: the statement of [lr_demo] that adds the bias puts a column of
    ones in front of the features when [num] is their row count, and fails
    with ShapeMismatch otherwise.  On the result, [predict] with weights of
    one row more than the features have columns gives
    sigmoid (W(0, c) + sum over k of feats(i, k) * W(k + 1, c)): row 0 of
    the weights is the intercept. *)
Theorem bias_column_intercept (num : nat) (feats W : AF.array R) :
  (num = AF.d0 feats ->
   exists F, join_bias num feats = Ok F /\
     AF.d0 F = AF.d0 feats /\ AF.d1 F = S (AF.d1 feats) /\
     (forall i, AF.elem F i 0 = 1) /\
     (forall i j, AF.elem F i (S j) = AF.elem feats i j) /\
     (AF.d0 W = S (AF.d1 feats) ->
      exists P, predict F W = Ok P /\
        AF.d0 P = AF.d0 feats /\ AF.d1 P = AF.d1 W /\
        forall i c, AF.elem P i c =
          1 / (1 + exp (- (AF.elem W 0 c +
                           AF.sum_n (fun k => AF.elem feats i k * AF.elem W (S k) c)
                             (AF.d1 feats)))))) /\
  (num <> AF.d0 feats -> join_bias num feats = Err ShapeMismatch).
Proof.
  unfold join_bias, AF.join1. cbn [AF.constant AF.d0 AF.d1 AF.elem].
  split.
  - intros ->. rewrite Nat.eqb_refl.
    eexists. split; [reflexivity|]. cbn [AF.d0 AF.d1 AF.elem].
    split; [reflexivity|]. split; [reflexivity|].
    split; [intros i; reflexivity|].
    split; [intros i j; cbn; now rewrite Nat.sub_0_r|].
    intros HW. unfold predict, AF.matmul. cbn [AF.d0 AF.d1 AF.elem].
    rewrite HW. change (1 + AF.d1 feats)%nat with (S (AF.d1 feats)).
    rewrite Nat.eqb_refl. cbn [bind].
    eexists. split; [reflexivity|].
    split; [reflexivity|]. split; [reflexivity|].
    intros i c. rewrite sigmoid_elem. cbn [AF.elem].
    rewrite sum_n_shift. cbn [Nat.ltb Nat.leb].
    rewrite Rmult_1_l.
    do 5 f_equal. apply sum_n_ext. intros k. cbn. now rewrite Nat.sub_0_r.
  - intros Hn. destruct (Nat.eqb_spec num (AF.d0 feats)); [contradiction | reflexivity].
Qed.

Lemma bias_column_intercept_witness :
  (2%nat = AF.d0 X0 /\
   exists F, join_bias 2 X0 = Ok F /\
     AF.d0 F = AF.d0 X0 /\ AF.d1 F = S (AF.d1 X0) /\
     (forall i, AF.elem F i 0 = 1) /\
     (forall i j, AF.elem F i (S j) = AF.elem X0 i j) /\
     (AF.d0 (AF.constant 1 3 1 : AF.array R) = S (AF.d1 X0) ->
      exists P, predict F (AF.constant 1 3 1) = Ok P /\
        AF.d0 P = AF.d0 X0 /\ AF.d1 P = AF.d1 (AF.constant 1 3 1 : AF.array R) /\
        forall i c, AF.elem P i c =
          1 / (1 + exp (- (AF.elem (AF.constant 1 3 1) 0 c +
                           AF.sum_n (fun k => AF.elem X0 i k *
                                              AF.elem (AF.constant 1 3 1) (S k) c)
                             (AF.d1 X0)))))) /\
  (3%nat <> AF.d0 X0 /\ join_bias 3 X0 = Err ShapeMismatch).
Proof.
  split.
  - split; [reflexivity|].
    apply (proj1 (bias_column_intercept 2 X0 (AF.constant 1 3 1))). reflexivity.
  - split; [cbn; lia|].
    apply (proj2 (bias_column_intercept 3 X0 (AF.constant 1 3 1))). cbn; lia.
Defined.

(** ** One iteration more *)

Lemma for_loop_extend (X Y : AF.array R) (alpha lambda : R) (n : nat) :
  forall s0 s,
    (1 <= n)%nat ->
    for_loop n (train_body X Y alpha lambda) s0 = Ok s ->
    AF.alltrue (AF.lts (J s) 0.1) = false ->
    for_loop (S n) (train_body X Y alpha lambda) s0 =
      (r <- train_body X Y alpha lambda s ;; Ok (fst r)).
Proof.
  induction n as [|n IH]; intros s0 s Hn Hl Hlt; [lia|].
  change (for_loop (S (S n)) (train_body X Y alpha lambda) s0)
    with (r <- train_body X Y alpha lambda s0 ;;
          if snd r then Ok (fst r)
          else for_loop (S n) (train_body X Y alpha lambda) (fst r)).
  cbn [for_loop] in Hl.
  destruct (train_body X Y alpha lambda s0) as [[s1 b]|e] eqn:Eb;
    cbn [bind fst snd] in *; [|discriminate].
  destruct (train_body_keeps _ _ _ _ _ _ _ Eb) as (_ & _ & _ & Hb).
  destruct b.
  - inversion Hl; subst. congruence.
  - destruct n as [|n].
    + cbn in Hl. inversion Hl; subst. cbn [for_loop].
      destruct (train_body X Y alpha lambda s) as [[s2 b2]|e]; cbn; [|reflexivity].
      now destruct b2.
    + apply IH; [lia | exact Hl | exact Hlt].
Qed.

(** X14: when a run of [train] with max_iter at least 1 ends with a last
    loss that is not below 0.1, the run with max_iter + 1 is that run
    followed by one more turn of the loop (one call of [cost] on its
    weights, and the update unless the new loss is below 0.1). *)
Theorem train_one_more_iteration (X Y : AF.array R) (alpha lambda : R)
    (maxiter : Z) (s : train_state) :
  (1 <= maxiter)%Z ->
  train_run X Y alpha lambda maxiter = Ok s ->
  AF.alltrue (AF.lts (J s) 0.1) = false ->
  train_run X Y alpha lambda (maxiter + 1) =
    (r <- train_body X Y alpha lambda s ;; Ok (fst r)).
Proof.
  intros Hm Hr Hlt. unfold train_run in *.
  replace (Z.to_nat (maxiter + 1)) with (S (Z.to_nat maxiter)) by lia.
  apply for_loop_extend; [lia | exact Hr | exact Hlt].
Qed.

(** On the sample of [converged_run] the first loss, ln 2, is not below
    0.1. *)
Lemma unconverged_run :
  exists s, train_run Xc Yc 100 0 1 = Ok s /\
    AF.alltrue (AF.lts (J s) 0.1) = false.
Proof.
  destruct (cost_zero_weights Xc Yc 0 eq_refl ltac:(cbn; lia))
    as (Jv0 & dJv0 & Hc0 & J00 & J01 & G00 & G01 & HJ0 & HG0).
  cbn [Xc Yc AF.constant AF.d0 AF.d1] in Hc0, G00, G01, HJ0.
  assert (Hge : ~ AF.elem Jv0 0 0 < 0.1).
  { rewrite HJ0. pose proof ln_2_above_threshold. cbn. lra. }
  set (W1 := AF.mkArray 1 1 (fun i j => 0 - 100 * AF.elem dJv0 i j)).
  assert (Hsub : AF.sub (Weights (train_init Xc Yc)) (AF.smul 100 dJv0) = Ok W1).
  { unfold AF.sub, AF.map2, AF.same_dims; cbn. now rewrite G00, G01. }
  exists (mkState W1 Jv0 dJv0 1). split.
  - unfold train_run. change (Z.to_nat 1) with 1%nat. cbn [for_loop].
    rewrite (train_body_step Xc Yc 100 0 (train_init Xc Yc) Jv0 dJv0 Hc0 J00 J01).
    rewrite (Rltb_false _ _ Hge). rewrite Hsub. reflexivity.
  - cbn [J]. rewrite (alltrue_scalar Jv0 0.1 J00 J01).
    now apply Rltb_false.
Qed.

Lemma train_one_more_iteration_witness :
  exists s,
    (1 <= 1)%Z /\ train_run Xc Yc 100 0 1 = Ok s /\
    AF.alltrue (AF.lts (J s) 0.1) = false /\
    train_run Xc Yc 100 0 (1 + 1) =
      (r <- train_body Xc Yc 100 0 s ;; Ok (fst r)).
Proof.
  destruct unconverged_run as (s & Hr & Hlt).
  exists s. split; [lia|]. split; [exact Hr|]. split; [exact Hlt|].
  apply (train_one_more_iteration Xc Yc 100 0 1 s); [lia | exact Hr | exact Hlt].
Defined.

(** ** Agreement with the Standard Library's model of IEEE 754

    On the operands that decide the statements on [accuracy] and on the
    saturation of [sigmoid], module [F32] returns the numbers that
    [SpecFloat] computes for binary32 (24 bits, emax 128). *)

Example product_agrees :
  F32.mul (F32.of_Z 100) (F32.of_Z 671089) =
  F32.of_spec (SFmul 24 128 (binary_normalize 24 128 100 0 false)
                 (binary_normalize 24 128 671089 0 false)).
Proof.
  assert (E : SFmul 24 128 (binary_normalize 24 128 100 0 false)
                (binary_normalize 24 128 671089 0 false)
              = S754_finite false 8388612 3) by (vm_compute; reflexivity).
  rewrite E. cbn [F32.of_spec].
  unfold F32.of_Z. rewrite (round_int 100), (round_int 671089) by lia.
  cbn [F32.mul]. pose proof bpow_128_large.
  rewrite (round_fin (100 * 671089) 67108896 ltac:(lra) product_671089 ltac:(lra)).
  f_equal. bpow_num. lra.
Qed.

Example quotient_agrees :
  F32.div (F32.mul (F32.of_Z 100) (F32.of_Z 671089)) (F32.of_Z 671089) =
  F32.of_spec
    (SFdiv 24 128
       (SFmul 24 128 (binary_normalize 24 128 100 0 false)
          (binary_normalize 24 128 671089 0 false))
       (binary_normalize 24 128 671089 0 false)).
Proof.
  assert (E : SFdiv 24 128
                (SFmul 24 128 (binary_normalize 24 128 100 0 false)
                   (binary_normalize 24 128 671089 0 false))
                (binary_normalize 24 128 671089 0 false)
              = S754_finite false 13107199 (-17)) by (vm_compute; reflexivity).
  rewrite E. cbn [F32.of_spec].
  unfold F32.of_Z. rewrite (round_int 100), (round_int 671089) by lia.
  cbn [F32.mul]. pose proof bpow_128_large.
  rewrite (round_fin (100 * 671089) 67108896 ltac:(lra) product_671089 ltac:(lra)).
  cbn [F32.div]. destruct (Req_EM_T 671089 0); [lra|].
  rewrite (round_fin (67108896 / 671089) (13107199 / 131072) ltac:(lra) quotient_671089 ltac:(lra)).
  f_equal. bpow_num. lra.
Qed.

Example quotient_above_agrees :
  F32.div (F32.mul (F32.of_Z 100) (F32.of_Z 671091)) (F32.of_Z 671091) =
  F32.of_spec
    (SFdiv 24 128
       (SFmul 24 128 (binary_normalize 24 128 100 0 false)
          (binary_normalize 24 128 671091 0 false))
       (binary_normalize 24 128 671091 0 false)).
Proof.
  assert (E : SFdiv 24 128
                (SFmul 24 128 (binary_normalize 24 128 100 0 false)
                   (binary_normalize 24 128 671091 0 false))
                (binary_normalize 24 128 671091 0 false)
              = S754_finite false 13107201 (-17)) by (vm_compute; reflexivity).
  rewrite E. cbn [F32.of_spec].
  unfold F32.of_Z. rewrite (round_int 100), (round_int 671091) by lia.
  cbn [F32.mul]. pose proof bpow_128_large.
  rewrite (round_fin (100 * 671091) 67109104 ltac:(lra) product_671091 ltac:(lra)).
  cbn [F32.div]. destruct (Req_EM_T 671091 0); [lra|].
  rewrite (round_fin (67109104 / 671091) (13107201 / 131072) ltac:(lra) quotient_671091 ltac:(lra)).
  f_equal. bpow_num. lra.
Qed.

Example saturation_agrees :
  F32.add (F32.Fin 1) (F32.Fin (F32.bpow (-30))) =
  F32.of_spec (SFadd 24 128 (binary_normalize 24 128 1 0 false)
                 (S754_finite false 8388608 (-53))).
Proof.
  assert (E : SFadd 24 128 (binary_normalize 24 128 1 0 false)
                (S754_finite false 8388608 (-53))
              = S754_finite false 8388608 (-23)) by (vm_compute; reflexivity).
  rewrite E. cbn [F32.of_spec F32.add].
  assert (Ht : 0 <= F32.bpow (-30) <= F32.bpow (-30)).
  { pose proof (bpow_pos (-30)). lra. }
  pose proof one_below_overflow.
  rewrite (round_fin (1 + F32.bpow (-30)) 1 ltac:(lra) (one_plus_tiny _ Ht) ltac:(lra)).
  f_equal. bpow_num. lra.
Qed.
